(** * amcho-pasro: the client-side scripts, embedded and verified

    The repository ships two browser scripts:

    - [static/main.js]: the mobile sidebar and the multi-step form wizard
      (the second copy of the file differs only in the login and signup
      placeholders, which nothing below depends on);
    - [static/home-map.js]: the store map of the home page.

    Both are event handlers over the DOM.  The DOM is modelled as explicit
    state: every handler is a function from the state before the event to
    the state after it.  A browser runs one handler at a time to completion,
    so a handler is one step of the state machine. *)

From Stdlib Require Import ZArith List String Ascii Bool Lia.
From Stdlib Require Import SpecFloat.
From stdpp Require Import base option list gmap sets strings.

Local Open Scope string_scope.
Local Open Scope list_scope.
Local Open Scope Z_scope.

(** ** The part of the DOM the scripts touch *)

Module Dom.

(** An element, reduced to what the scripts read and write: its class
    list, its attributes, and the [disabled] and [hidden] properties.  The
    class list is the set of the class names, which is what [contains]
    reads; the text of the [class] attribute, with its order and white
    space, is not kept, and [attributes] holds the other attributes. *)
Record Element := mkElement {
  classList : gset string;
  attributes : gmap string string;
  disabled : bool;
  hidden : bool
}.

Definition withClasses (e : Element) (cs : gset string) : Element :=
  {| classList := cs; attributes := attributes e;
     disabled := disabled e; hidden := hidden e |}.

(** [el.classList.add(c)] *)
Definition classList_add (c : string) (e : Element) : Element :=
  withClasses e ({[c]} ∪ classList e).

(** [el.classList.remove(c)] *)
Definition classList_remove (c : string) (e : Element) : Element :=
  withClasses e (classList e ∖ {[c]}).

(** [el.classList.contains(c)] *)
Definition classList_contains (c : string) (e : Element) : bool :=
  bool_decide (c ∈ classList e).

(** [el.classList.toggle(c, force)]: with a second argument the class is
    added when [force] is true and removed when it is false. *)
Definition classList_toggle (c : string) (force : bool) (e : Element) : Element :=
  if force then classList_add c e else classList_remove c e.

(** [el.setAttribute(k, v)] *)
Definition setAttribute (k v : string) (e : Element) : Element :=
  {| classList := classList e; attributes := <[k := v]> (attributes e);
     disabled := disabled e; hidden := hidden e |}.

Definition set_disabled (b : bool) (e : Element) : Element :=
  {| classList := classList e; attributes := attributes e;
     disabled := b; hidden := hidden e |}.

Definition set_hidden (b : bool) (e : Element) : Element :=
  {| classList := classList e; attributes := attributes e;
     disabled := disabled e; hidden := b |}.

(** An element without classes or attributes, enabled and visible. *)
Definition plain : Element :=
  {| classList := ∅; attributes := ∅; disabled := false; hidden := false |}.

Lemma contains_add c e : classList_contains c (classList_add c e) = true.
Proof.
  unfold classList_contains, classList_add. simpl.
  apply bool_decide_eq_true, elem_of_union_l, elem_of_singleton. reflexivity.
Qed.

Lemma contains_remove c e : classList_contains c (classList_remove c e) = false.
Proof.
  unfold classList_contains, classList_remove. simpl.
  apply bool_decide_eq_false. rewrite elem_of_difference, elem_of_singleton.
  tauto.
Qed.

Lemma contains_add_ne c d e :
  c ≠ d → classList_contains d (classList_add c e) = classList_contains d e.
Proof.
  intros Hne. unfold classList_contains, classList_add. simpl.
  apply bool_decide_ext. rewrite elem_of_union, elem_of_singleton.
  split; [intros [->|]; [congruence | assumption] | tauto].
Qed.

Lemma contains_remove_ne c d e :
  c ≠ d → classList_contains d (classList_remove c e) = classList_contains d e.
Proof.
  intros Hne. unfold classList_contains, classList_remove. simpl.
  apply bool_decide_ext. rewrite elem_of_difference, elem_of_singleton.
  split; [tauto | intros H; split; [assumption | congruence]].
Qed.

Lemma contains_toggle c force e :
  classList_contains c (classList_toggle c force e) = force.
Proof. destruct force; [apply contains_add | apply contains_remove]. Qed.

Lemma contains_toggle_ne c d force e :
  c ≠ d → classList_contains d (classList_toggle c force e) = classList_contains d e.
Proof. intros H. destruct force; [by apply contains_add_ne | by apply contains_remove_ne]. Qed.

Lemma contains_setAttribute c k v e :
  classList_contains c (setAttribute k v e) = classList_contains c e.
Proof. reflexivity. Qed.

Lemma attribute_setAttribute k v e : attributes (setAttribute k v e) !! k = Some v.
Proof. apply lookup_insert_eq. Qed.

End Dom.

(** ** The mobile sidebar ([main.js], lines 1-48) *)

Module Sidebar.
Import Dom.

(** The script looks its elements up once, when it is loaded;
    [document.getElementById] returns [null] for an id the page does not
    have, hence the options.  [body_overflow] is
    [document.body.style.overflow] and [innerWidth] is [window.innerWidth].
    The handlers below run on clicks and resizes, when the body exists. *)
Record Page := mkPage {
  mobileMenuToggle : option Element;
  mobileSidebar : option Element;
  sidebarClose : option Element;
  sidebarOverlay : option Element;
  sidebarLinks : list Element;
  body_overflow : string;
  innerWidth : Z
}.

(** [if (el) el.classList.add("active")] and its counterpart. *)
Definition activate (o : option Element) : option Element :=
  classList_add "active" <$> o.

Definition deactivate (o : option Element) : option Element :=
  classList_remove "active" <$> o.

Definition openSidebar (p : Page) : Page :=
  {| mobileMenuToggle := activate (mobileMenuToggle p);
     mobileSidebar := activate (mobileSidebar p);
     sidebarClose := sidebarClose p;
     sidebarOverlay := activate (sidebarOverlay p);
     sidebarLinks := sidebarLinks p;
     body_overflow := "hidden";
     innerWidth := innerWidth p |}.

Definition closeSidebar (p : Page) : Page :=
  {| mobileMenuToggle := deactivate (mobileMenuToggle p);
     mobileSidebar := deactivate (mobileSidebar p);
     sidebarClose := sidebarClose p;
     sidebarOverlay := deactivate (sidebarOverlay p);
     sidebarLinks := sidebarLinks p;
     body_overflow := "";
     innerWidth := innerWidth p |}.

(** [mobileSidebar && mobileSidebar.classList.contains("active")] *)
Definition panel_active (p : Page) : bool :=
  match mobileSidebar p with
  | Some e => classList_contains "active" e
  | None => false
  end.

(** The click listener of the toggle button; it is registered only when
    both the button and the panel exist. *)
Definition onToggleClick (p : Page) : Page :=
  match mobileMenuToggle p, mobileSidebar p with
  | Some _, Some panel =>
      if classList_contains "active" panel then closeSidebar p else openSidebar p
  | _, _ => p
  end.

Definition onCloseClick (p : Page) : Page :=
  match sidebarClose p with Some _ => closeSidebar p | None => p end.

Definition onOverlayClick (p : Page) : Page :=
  match sidebarOverlay p with Some _ => closeSidebar p | None => p end.

(** A click on the [i]-th [.sidebar-link]. *)
Definition onLinkClick (i : nat) (p : Page) : Page :=
  match sidebarLinks p !! i with Some _ => closeSidebar p | None => p end.

Definition withWidth (w : Z) (p : Page) : Page :=
  {| mobileMenuToggle := mobileMenuToggle p;
     mobileSidebar := mobileSidebar p;
     sidebarClose := sidebarClose p;
     sidebarOverlay := sidebarOverlay p;
     sidebarLinks := sidebarLinks p;
     body_overflow := body_overflow p;
     innerWidth := w |}.

(** The [resize] listener of the window, reading the current width. *)
Definition onResize (p : Page) : Page :=
  if (768 <? innerWidth p) && panel_active p then closeSidebar p else p.

Inductive Event :=
| ToggleClick
| CloseClick
| OverlayClick
| LinkClick (i : nat)
| Resize (w : Z).

(** The browser sets the new width, then runs the listener. *)
Definition handle (ev : Event) (p : Page) : Page :=
  match ev with
  | ToggleClick => onToggleClick p
  | CloseClick => onCloseClick p
  | OverlayClick => onOverlayClick p
  | LinkClick i => onLinkClick i p
  | Resize w => onResize (withWidth w p)
  end.

(** The three elements whose class the sidebar drives, in the order the
    specification lists them: toggle button, panel, overlay. *)
Definition tracked (p : Page) : list (option Element) :=
  [mobileMenuToggle p; mobileSidebar p; sidebarOverlay p].

(** Whether a tracked element carries the class; [None] for an element the
    page does not have. *)
Definition class_of (c : string) (o : option Element) : option bool :=
  classList_contains c <$> o.

Definition active_of (o : option Element) : option bool := class_of "active" o.

(** [Some b] for an element that exists, whatever its classes. *)
Definition where_present (b : bool) (o : option Element) : option bool :=
  (λ _, b) <$> o.

(** The four effects of opening, all applied: every tracked element is
    active and the body does not scroll. *)
Definition all_open (p : Page) : Prop :=
  Forall (λ o, active_of o ≠ Some false) (tracked p) ∧ body_overflow p = "hidden".

(** None of the four effects applied. *)
Definition all_closed (p : Page) : Prop :=
  Forall (λ o, active_of o ≠ Some true) (tracked p) ∧ body_overflow p = "".

(** What the sidebar code can change on a page. *)
Definition sidebar_state (p : Page) : list (option Element) * string :=
  (tracked p, body_overflow p).

(** A page with all three tracked elements, none of them active. *)
Definition closed_page (w : Z) : Page :=
  {| mobileMenuToggle := Some plain; mobileSidebar := Some plain;
     sidebarClose := Some plain; sidebarOverlay := Some plain;
     sidebarLinks := [plain; plain]; body_overflow := ""; innerWidth := w |}.

Lemma active_of_activate o : active_of (activate o) = where_present true o.
Proof. destruct o as [e|]; simpl; [|done]. by rewrite contains_add. Qed.

Lemma active_of_deactivate o : active_of (deactivate o) = where_present false o.
Proof. destruct o as [e|]; simpl; [|done]. by rewrite contains_remove. Qed.

Lemma tracked_openSidebar p :
  active_of <$> tracked (openSidebar p) = where_present true <$> tracked p.
Proof. unfold tracked; simpl. by rewrite !active_of_activate. Qed.

Lemma tracked_closeSidebar p :
  active_of <$> tracked (closeSidebar p) = where_present false <$> tracked p.
Proof. unfold tracked; simpl. by rewrite !active_of_deactivate. Qed.

Lemma openSidebar_all_open p : all_open (openSidebar p).
Proof.
  split; [|done]. unfold tracked; simpl.
  repeat constructor; rewrite active_of_activate;
    match goal with |- context [where_present _ ?o] => by destruct o end.
Qed.

Lemma closeSidebar_all_closed p : all_closed (closeSidebar p).
Proof.
  split; [|done]. unfold tracked; simpl.
  repeat constructor; rewrite active_of_deactivate;
    match goal with |- context [where_present _ ?o] => by destruct o end.
Qed.

(** Opening and closing keep every class other than [active]. *)
Lemma openSidebar_other_classes c p :
  c ≠ "active" →
  class_of c <$> tracked (openSidebar p)
  = class_of c <$> tracked p.
Proof.
  intros Hc. unfold tracked, activate, class_of; simpl.
  destruct (mobileMenuToggle p), (mobileSidebar p), (sidebarOverlay p); simpl;
    rewrite ?contains_add_ne by done; reflexivity.
Qed.

Lemma closeSidebar_other_classes c p :
  c ≠ "active" →
  class_of c <$> tracked (closeSidebar p)
  = class_of c <$> tracked p.
Proof.
  intros Hc. unfold tracked, deactivate, class_of; simpl.
  destruct (mobileMenuToggle p), (mobileSidebar p), (sidebarOverlay p); simpl;
    rewrite ?contains_remove_ne by done; reflexivity.
Qed.

(** Every listener either leaves the sidebar as it is or runs exactly one
    of [openSidebar] and [closeSidebar]. *)
Lemma handle_cases ev p :
  sidebar_state (handle ev p) = sidebar_state p
  ∨ (∃ q, handle ev p = openSidebar q)
  ∨ (∃ q, handle ev p = closeSidebar q).
Proof.
  destruct ev as [| | |i|w]; simpl.
  - unfold onToggleClick.
    destruct (mobileMenuToggle p); [|by left].
    destruct (mobileSidebar p) as [panel|]; [|by left].
    destruct (classList_contains "active" panel); [right; right | right; left]; eauto.
  - unfold onCloseClick. destruct (sidebarClose p); [right; right; eauto | by left].
  - unfold onOverlayClick. destruct (sidebarOverlay p); [right; right; eauto | by left].
  - unfold onLinkClick. destruct (sidebarLinks p !! i); [right; right; eauto | by left].
  - unfold onResize.
    destruct (_ && _); [right; right; eauto | by left].
Qed.

(** C8.  Opening makes every tracked element (toggle button, panel, overlay)
    active and sets the body overflow to [hidden]; closing removes the class
    from every tracked element and resets the overflow.  Each is one
    function from page to page that cannot stop half way: whatever the page
    looked like before, the page after [openSidebar] has all four effects
    and the page after [closeSidebar] has none, and every listener of the
    script leaves the sidebar untouched, fully open or fully closed.  An
    element the page does not have stays absent ([None]); of the elements
    that exist, none is skipped. *)
Theorem sidebar_open_close_atomic (p : Page) :
  (active_of <$> tracked (openSidebar p) = where_present true <$> tracked p
   ∧ body_overflow (openSidebar p) = "hidden"
   ∧ all_open (openSidebar p))
  ∧ (active_of <$> tracked (closeSidebar p) = where_present false <$> tracked p
     ∧ body_overflow (closeSidebar p) = ""
     ∧ all_closed (closeSidebar p))
  ∧ (∀ ev, sidebar_state (handle ev p) = sidebar_state p
           ∨ all_open (handle ev p) ∨ all_closed (handle ev p)).
Proof.
  split; [|split].
  - split; [apply tracked_openSidebar|]. split; [done | apply openSidebar_all_open].
  - split; [apply tracked_closeSidebar|]. split; [done | apply closeSidebar_all_closed].
  - intros ev. destruct (handle_cases ev p) as [H | [[q ->] | [q ->]]].
    + by left.
    + right; left. apply openSidebar_all_open.
    + right; right. apply closeSidebar_all_closed.
Qed.

(** C9.  The resize listener, run at the new width [w]: when the width is
    above 768 and the panel is active it closes the sidebar, so that no
    tracked element is active any more and the body overflow is reset; when
    the panel is not active, or the width is at most 768, the page is left
    exactly as the resize found it. *)
Theorem resize_closes_open_sidebar (w : Z) (p : Page) :
  (768 < w → panel_active p = true →
     handle (Resize w) p = closeSidebar (withWidth w p)
     ∧ active_of <$> tracked (handle (Resize w) p) = where_present false <$> tracked p
     ∧ body_overflow (handle (Resize w) p) = "")
  ∧ (w ≤ 768 ∨ panel_active p = false → handle (Resize w) p = withWidth w p).
Proof.
  assert (Hh : handle (Resize w) p =
               if (768 <? w) && panel_active p
               then closeSidebar (withWidth w p) else withWidth w p) by reflexivity.
  rewrite Hh. split.
  - intros Hw Hact. rewrite Hact, (proj2 (Z.ltb_lt 768 w) Hw). simpl andb. cbv iota.
    split; [reflexivity|]. split; [|reflexivity].
    apply (tracked_closeSidebar (withWidth w p)).
  - intros [Hw | Hact].
    + by rewrite (proj2 (Z.ltb_ge 768 w) Hw).
    + by rewrite Hact, andb_false_r.
Qed.

(** The open page at a desktop width is closed by the resize; the closed
    page and the narrow page are left alone. *)
Lemma resize_closes_open_sidebar_witness :
  (handle (Resize 1024) (openSidebar (closed_page 600))
     = closeSidebar (withWidth 1024 (openSidebar (closed_page 600)))
   ∧ active_of <$> tracked (handle (Resize 1024) (openSidebar (closed_page 600)))
     = [Some false; Some false; Some false]
   ∧ body_overflow (handle (Resize 1024) (openSidebar (closed_page 600))) = "")
  ∧ handle (Resize 1024) (closed_page 600) = withWidth 1024 (closed_page 600)
  ∧ handle (Resize 700) (openSidebar (closed_page 600))
    = withWidth 700 (openSidebar (closed_page 600)).
Proof.
  split; [|split].
  - apply (resize_closes_open_sidebar 1024 (openSidebar (closed_page 600))).
    + lia.
    + vm_compute. reflexivity.
  - apply (resize_closes_open_sidebar 1024 (closed_page 600)).
    right. vm_compute. reflexivity.
  - apply (resize_closes_open_sidebar 700 (openSidebar (closed_page 600))).
    left. lia.
Defined.

End Sidebar.

(** ** The multi-step form wizard ([main.js], [initMultiStepForms]) *)

Module Wizard.
Import Dom.

(** An [input], [select] or [textarea].  [reportValidity] is what a call of
    the method of that name answers at present ([true]: the control
    satisfies its constraints); [None] stands for an object whose
    [reportValidity] is not a function. *)
Record Control := mkControl { reportValidity : option bool }.

(** A [.form-step] panel with the controls inside it, in document order. *)
Record Step := mkStep { panel : Element; controls : list Control }.

(** One [.multi-step-form].  [id] is its [id] attribute, the empty string
    for a form without one; [named_id] lists the elements that the named
    properties of the form give for the name [id] (the controls and images
    inside it whose [name] or [id] attribute is [id]), in tree order.  The
    step panels, the progress indicators and the three buttons are taken
    to be different elements. *)
Record Form := mkForm {
  id : string;
  named_id : list Element;
  form_el : Element;
  steps : list Step;
  progressSteps : list Element;
  prevBtn : option Element;
  nextBtn : option Element;
  submitBtn : option Element
}.

(** What the expression [form.id] evaluates to.  The named properties of
    a form come before its own: with one element named [id] inside the
    form, [form.id] is that element, with several it is the collection of
    them, and only without any is it the [id] attribute, as a string. *)
Inductive IdProperty :=
| IdString (s : string)
| IdElement (el : Element)
| IdRadioNodeList (els : list Element).

(** The [detail] of an [amcho:stepchange] event; [None] is [null]. *)
Record Detail := mkDetail {
  formId : option IdProperty;
  stepIndex : Z;
  stepNumber : Z
}.

Record CustomEvent := mkCustomEvent { type : string; detail : Detail }.

(** What a listener does besides changing the form: dispatch an event on
    [window], make the browser show the validation message of the control
    at position [i] of the validated step (a [reportValidity()] that
    answered [false]), or cancel the default action of the event. *)
Inductive Effect :=
| WindowDispatch (ev : CustomEvent)
| ReportInvalid (i : nat)
| PreventDefault.

(** The form together with the variable [activeIndex] of the closure that
    [initMultiStepForms] creates for it. *)
Record State := mkState { form : Form; activeIndex : Z }.

Definition stepCount (s : State) : Z := Z.of_nat (length (steps (form s))).

(** [String(b)] *)
Definition String_of_bool (b : bool) : string := if b then "true" else "false".

(** [arr[i]] for a number [i]: [undefined] out of range. *)
Definition at_index {A} (l : list A) (i : Z) : option A :=
  if i <? 0 then None else l !! Z.to_nat i.

(** The loop of [validateStep] over the controls from position [i] on: it
    stops at the first control that reports invalid. *)
Fixpoint validateControls (i : nat) (cs : list Control) : bool * list Effect :=
  match cs with
  | [] => (true, [])
  | c :: rest =>
      match reportValidity c with
      | Some false => (false, [ReportInvalid i])
      | _ => validateControls (S i) rest
      end
  end.

Definition validateStep (stepEl : option Step) : bool * list Effect :=
  match stepEl with
  | None => (true, [])
  | Some st => validateControls 0 (controls st)
  end.

(** The body of the first [forEach] of [setStep]. *)
Definition showStep (newIndex : Z) (idx : nat) (st : Step) : Step :=
  let isActive := Z.of_nat idx =? newIndex in
  {| panel := setAttribute "aria-hidden" (String_of_bool (negb isActive))
                (classList_toggle "is-active" isActive (panel st));
     controls := controls st |}.

(** The body of the second [forEach] of [setStep]. *)
Definition showProgress (newIndex : Z) (idx : nat) (ind : Element) : Element :=
  classList_toggle "is-complete" (Z.of_nat idx <? newIndex)
    (classList_toggle "is-active" (Z.of_nat idx =? newIndex) ind).

(** [form.id] *)
Definition form_id (f : Form) : IdProperty :=
  match named_id f with
  | [] => IdString (id f)
  | [el] => IdElement el
  | els => IdRadioNodeList els
  end.

(** [form.id || null]: only the empty string is falsy. *)
Definition formId_of (f : Form) : option IdProperty :=
  match form_id f with
  | IdString s => if decide (s = "") then None else Some (IdString s)
  | v => Some v
  end.

Definition stepchange (s : State) : CustomEvent :=
  {| type := "amcho:stepchange";
     detail := {| formId := formId_of (form s);
                  stepIndex := activeIndex s;
                  stepNumber := activeIndex s + 1 |} |}.

Definition setStep (newIndex : Z) (s : State) : State * list Effect :=
  let f := form s in
  let n := Z.of_nat (length (steps f)) in
  if (newIndex <? 0) || (n <=? newIndex) then (s, [])
  else
    let f' :=
      {| id := id f;
         named_id := named_id f;
         form_el := form_el f;
         steps := imap (showStep newIndex) (steps f);
         progressSteps := imap (showProgress newIndex) (progressSteps f);
         prevBtn := set_disabled (newIndex =? 0) <$> prevBtn f;
         nextBtn := set_hidden (newIndex =? n - 1) <$> nextBtn f;
         submitBtn := set_hidden (negb (newIndex =? n - 1)) <$> submitBtn f |} in
    let s' := {| form := f'; activeIndex := newIndex |} in
    (s', [WindowDispatch (stepchange s')]).

(** [initMultiStepForms], for one form of the page: a form with at most one
    step is left alone and gets no listener ([None]); any other form gets
    the class [multi-step-enabled], [activeIndex = 0] and [setStep(0)]. *)
Definition initForm (f : Form) : option (State * list Effect) :=
  if (length (steps f) <=? 1)%nat then None
  else
    let f' :=
      {| id := id f;
         named_id := named_id f;
         form_el := classList_add "multi-step-enabled" (form_el f);
         steps := steps f;
         progressSteps := progressSteps f;
         prevBtn := prevBtn f;
         nextBtn := nextBtn f;
         submitBtn := submitBtn f |} in
    Some (setStep 0 {| form := f'; activeIndex := 0 |}).

(** [initMultiStepForms]: the forms of the page in document order, each
    with the state it is left in, and the effects of all of them in the
    order they happen. *)
Fixpoint initMultiStepForms (forms : list Form) : list (option State) * list Effect :=
  match forms with
  | [] => ([], [])
  | f :: rest =>
      let '(states, fx) := initMultiStepForms rest in
      match initForm f with
      | None => (None :: states, fx)
      | Some (s, fx0) => (Some s :: states, fx0 ++ fx)
      end
  end.

(** The part shared by the two listeners: validate the current step, then
    [setStep(activeIndex + 1)]. *)
Definition advance (s : State) : State * list Effect :=
  let currentStep := at_index (steps (form s)) (activeIndex s) in
  let '(ok, shown) := validateStep currentStep in
  if ok then
    let '(s', fx) := setStep (activeIndex s + 1) s in (s', shown ++ fx)
  else (s, shown).

(** The click listener of the form.  [trigger] is the [data-step-action]
    value of the closest ancestor of the click target that has the
    attribute, [None] when there is no such ancestor. *)
Definition onClick (trigger : option string) (s : State) : State * list Effect :=
  match trigger with
  | None => (s, [])
  | Some action =>
      if decide (action = "next") then
        let '(s', fx) := advance s in (s', PreventDefault :: fx)
      else if decide (action = "prev") then
        let '(s', fx) := setStep (activeIndex s - 1) s in (s', PreventDefault :: fx)
      else (s, [PreventDefault])
  end.

(** The submit listener of the form. *)
Definition onSubmit (s : State) : State * list Effect :=
  if activeIndex s =? stepCount s - 1 then (s, [])
  else let '(s', fx) := advance s in (s', PreventDefault :: fx).

(** The user (or another script) changes the controls of step [i], and
    with them what they report. *)
Definition setControls (i : nat) (cs : list Control) (s : State) : State :=
  let f := form s in
  {| form :=
       {| id := id f; named_id := named_id f; form_el := form_el f;
          steps := alter (λ st, {| panel := panel st; controls := cs |}) i (steps f);
          progressSteps := progressSteps f;
          prevBtn := prevBtn f; nextBtn := nextBtn f; submitBtn := submitBtn f |};
     activeIndex := activeIndex s |}.

Inductive Action :=
| Click (trigger : option string)
| Submit
| Input (i : nat) (cs : list Control).

Definition step (a : Action) (s : State) : State * list Effect :=
  match a with
  | Click trigger => onClick trigger s
  | Submit => onSubmit s
  | Input i cs => (setControls i cs s, [])
  end.

(** A sequence of events, handled one after the other. *)
Fixpoint run (acts : list Action) (s : State) : State * list Effect :=
  match acts with
  | [] => (s, [])
  | a :: rest =>
      let '(s1, fx1) := step a s in
      let '(s2, fx2) := run rest s1 in
      (s2, fx1 ++ fx2)
  end.

(** The events a trace dispatched on [window], in order. *)
Definition dispatched (fx : list Effect) : list CustomEvent :=
  omap (λ e, match e with WindowDispatch ev => Some ev | _ => None end) fx.

(** No control reports invalid. *)
Definition all_valid (cs : list Control) : Prop :=
  Forall (λ c, reportValidity c ≠ Some false) cs.

Definition next : Action := Click (Some "next").
Definition prev : Action := Click (Some "prev").

(** A three-step form with one control per step, the second one invalid,
    and the state the page load leaves it in. *)
Definition demo_form : Form :=
  {| id := "signup";
     named_id := [];
     form_el := plain;
     steps := [ {| panel := plain; controls := [mkControl (Some true)] |};
                {| panel := plain; controls := [mkControl (Some false)] |};
                {| panel := plain; controls := [mkControl (Some true)] |} ];
     progressSteps := [plain; plain; plain];
     prevBtn := Some plain;
     nextBtn := Some plain;
     submitBtn := Some plain |}.

Definition demo_start : State * list Effect :=
  setStep 0
    {| form :=
         {| id := "signup";
            named_id := [];
            form_el := classList_add "multi-step-enabled" plain;
            steps := steps demo_form;
            progressSteps := progressSteps demo_form;
            prevBtn := prevBtn demo_form;
            nextBtn := nextBtn demo_form;
            submitBtn := submitBtn demo_form |};
       activeIndex := 0 |}.

(** *** [setStep] *)

Lemma setStep_rejected k s :
  k < 0 ∨ stepCount s ≤ k → setStep k s = (s, []).
Proof.
  intros Hk. unfold setStep, stepCount in *.
  destruct (k <? 0) eqn:E1; [reflexivity|].
  destruct (Z.of_nat (length (steps (form s))) <=? k) eqn:E2; [reflexivity|].
  apply Z.ltb_ge in E1. apply Z.leb_gt in E2. lia.
Qed.

Lemma setStep_accepted k s :
  0 ≤ k < stepCount s →
  ∃ s', setStep k s = (s', [WindowDispatch (stepchange s')])
        ∧ activeIndex s' = k
        ∧ stepCount s' = stepCount s
        ∧ id (form s') = id (form s).
Proof.
  intros [Hk0 Hk1]. unfold setStep, stepCount in *.
  rewrite (proj2 (Z.ltb_ge k 0) Hk0), (proj2 (Z.leb_gt _ k) Hk1). simpl orb. cbv iota.
  eexists. split; [reflexivity|]. simpl.
  by rewrite length_imap.
Qed.

Lemma setStep_cases k s :
  setStep k s = (s, [])
  ∨ ∃ s', setStep k s = (s', [WindowDispatch (stepchange s')])
          ∧ 0 ≤ k < stepCount s
          ∧ activeIndex s' = k
          ∧ stepCount s' = stepCount s
          ∧ id (form s') = id (form s).
Proof.
  destruct (decide (0 ≤ k < stepCount s)) as [Hk|Hk].
  - right. destruct (setStep_accepted k s Hk) as (s' & ? & ? & ? & ?). eauto 10.
  - left. apply setStep_rejected. lia.
Qed.

(** *** [validateStep] *)

Lemma validateControls_valid i cs :
  all_valid cs → validateControls i cs = (true, []).
Proof.
  intros H. revert i. induction H as [|c cs Hc _ IH]; intros i; simpl; [reflexivity|].
  destruct (reportValidity c) as [[]|]; try apply IH. congruence.
Qed.

Lemma validateControls_invalid i cs :
  ¬ all_valid cs → ∃ j, validateControls i cs = (false, [ReportInvalid j]).
Proof.
  revert i. induction cs as [|c cs IH]; intros i Hn; simpl.
  - destruct Hn. constructor.
  - destruct (reportValidity c) as [[]|] eqn:E; eauto;
      apply IH; intros H; apply Hn; constructor; [congruence | assumption | congruence | assumption].
Qed.

Lemma all_valid_dec cs : {all_valid cs} + {¬ all_valid cs}.
Proof.
  apply Forall_dec. intros c. destruct (reportValidity c) as [[]|]; [left|right|left]; congruence.
Qed.

Lemma at_index_Some {A} (l : list A) i :
  0 ≤ i < Z.of_nat (length l) → ∃ x, at_index l i = Some x.
Proof.
  intros [H0 H1]. unfold at_index. rewrite (proj2 (Z.ltb_ge i 0) H0).
  apply lookup_lt_is_Some. lia.
Qed.

(** *** The listeners keep the index in range *)

Definition in_range (s : State) : Prop := 0 ≤ activeIndex s < stepCount s.

(** What a listener leaves alone: the number of steps and the form id. *)
Definition same_shape (s s' : State) : Prop :=
  stepCount s' = stepCount s ∧ id (form s') = id (form s).

Lemma same_shape_refl s : same_shape s s.
Proof. by split. Qed.

Lemma setStep_in_range k s :
  in_range s → in_range (setStep k s).1 ∧ same_shape s (setStep k s).1.
Proof.
  intros Hs. destruct (setStep_cases k s) as [-> | (s' & -> & Hk & Hi & Hn & Hid)]; simpl.
  - split; [assumption | apply same_shape_refl].
  - unfold in_range, same_shape. rewrite Hi, Hn. repeat split; (lia || congruence).
Qed.

Lemma advance_in_range s :
  in_range s → in_range (advance s).1 ∧ same_shape s (advance s).1.
Proof.
  intros Hs. unfold advance.
  destruct (validateStep _) as [[] shown].
  - pose proof (setStep_in_range (activeIndex s + 1) s Hs) as H.
    by destruct (setStep (activeIndex s + 1) s).
  - split; [assumption | apply same_shape_refl].
Qed.

Lemma step_in_range a s :
  in_range s → in_range (step a s).1 ∧ same_shape s (step a s).1.
Proof.
  intros Hs. destruct a as [[action|]| |i cs]; simpl.
  - destruct (decide (action = "next")).
    { pose proof (advance_in_range s Hs). by destruct (advance s). }
    destruct (decide (action = "prev")).
    + pose proof (setStep_in_range (activeIndex s - 1) s Hs).
      by destruct (setStep (activeIndex s - 1) s).
    + split; [assumption | apply same_shape_refl].
  - split; [assumption | apply same_shape_refl].
  - unfold onSubmit. destruct (_ =? _).
    + split; [assumption | apply same_shape_refl].
    + pose proof (advance_in_range s Hs). by destruct (advance s).
  - unfold in_range, same_shape, stepCount in *. simpl.
    rewrite length_alter. repeat split; (lia || reflexivity).
Qed.

Lemma run_in_range acts s :
  in_range s → in_range (run acts s).1 ∧ same_shape s (run acts s).1.
Proof.
  revert s. induction acts as [|a acts IH]; intros s Hs; simpl.
  - split; [assumption | apply same_shape_refl].
  - destruct (step_in_range a s Hs) as [H1 [H2 H3]].
    destruct (step a s) as [s1 fx1]; simpl in *.
    destruct (IH s1 H1) as [H4 [H5 H6]].
    destruct (run acts s1) as [s2 fx2]; simpl in *.
    split; [assumption|]. split; congruence.
Qed.

Lemma initForm_Some f s0 fx0 :
  initForm f = Some (s0, fx0) →
  (1 < length (steps f))%nat
  ∧ activeIndex s0 = 0
  ∧ stepCount s0 = Z.of_nat (length (steps f))
  ∧ id (form s0) = id f
  ∧ fx0 = [WindowDispatch (stepchange s0)].
Proof.
  unfold initForm. destruct (_ <=? _)%nat eqn:E; [discriminate|].
  apply Nat.leb_gt in E. intros H. injection H as H.
  match type of H with setStep 0 ?s = _ =>
    destruct (setStep_accepted 0 s) as (s' & Hs' & Hi & Hn & Hid) end.
  { unfold stepCount; simpl. lia. }
  rewrite Hs' in H. injection H as <- <-.
  by repeat split.
Qed.

(** *** What one listener run dispatches *)

Lemma dispatched_app fx fx' : dispatched (fx ++ fx') = dispatched fx ++ dispatched fx'.
Proof. apply omap_app. Qed.

Lemma validateStep_dispatches_nothing o : dispatched (validateStep o).2 = [].
Proof.
  destruct o as [st|]; [|reflexivity]. simpl.
  destruct (all_valid_dec (controls st)) as [H|H].
  - by rewrite (validateControls_valid 0 _ H).
  - by destruct (validateControls_invalid 0 _ H) as [j ->].
Qed.

(** [advance] either changes nothing and dispatches nothing, or moves to the
    next index and dispatches the event of the new state. *)
Lemma advance_cases s :
  ((advance s).1 = s ∧ dispatched (advance s).2 = [])
  ∨ (activeIndex (advance s).1 = activeIndex s + 1
     ∧ activeIndex s + 1 < stepCount s
     ∧ id (form (advance s).1) = id (form s)
     ∧ dispatched (advance s).2 = [stepchange (advance s).1]).
Proof.
  unfold advance.
  pose proof (validateStep_dispatches_nothing
                (at_index (steps (form s)) (activeIndex s))) as Hv.
  destruct (validateStep _) as [[] shown]; simpl in Hv; [|by left].
  destruct (setStep_cases (activeIndex s + 1) s)
    as [-> | (s' & -> & Hk & Hi & Hn & Hid)]; simpl.
  - left. by rewrite app_nil_r.
  - right. rewrite dispatched_app, Hv. simpl. repeat split; (lia || congruence).
Qed.

Lemma step_cases a s :
  (activeIndex (step a s).1 = activeIndex s
   ∧ dispatched (step a s).2 = []
   ∧ ((step a s).1 = s ∨ ∃ i cs, a = Input i cs))
  ∨ (activeIndex (step a s).1 ≠ activeIndex s
     ∧ id (form (step a s).1) = id (form s)
     ∧ dispatched (step a s).2 = [stepchange (step a s).1]).
Proof.
  destruct a as [[action|]| |i cs]; simpl.
  - destruct (decide (action = "next")).
    { destruct (advance_cases s) as [[H1 H2] | (H1 & H2 & H3 & H4)];
        destruct (advance s) as [s' fx]; simpl in *.
      - left. subst s'. eauto.
      - right. repeat split; (lia || congruence). }
    destruct (decide (action = "prev")); [|left; eauto].
    destruct (setStep_cases (activeIndex s - 1) s)
      as [-> | (s' & -> & Hk & Hi & Hn & Hid)]; simpl.
    + left; eauto.
    + right. repeat split; (lia || congruence).
  - left; eauto.
  - unfold onSubmit. destruct (_ =? _); [left; eauto|].
    destruct (advance_cases s) as [[H1 H2] | (H1 & H2 & H3 & H4)];
      destruct (advance s) as [s' fx]; simpl in *.
    + left. subst s'. eauto.
    + right. repeat split; (lia || congruence).
  - left. eauto 6.
Qed.

(** *** The two transitions at the ends of the range *)

Lemma next_at_last s :
  activeIndex s = stepCount s - 1 →
  (step next s).1 = s ∧ dispatched (step next s).2 = [].
Proof.
  intros Hlast. simpl.
  destruct (advance_cases s) as [[H1 H2] | (H1 & H2 & _)]; [|lia].
  by destruct (advance s).
Qed.

Lemma prev_at_first s :
  activeIndex s = 0 → step prev s = (s, [PreventDefault]).
Proof.
  intros H0. simpl. rewrite setStep_rejected; [reflexivity | lia].
Qed.

(** C3.  A form with more than one step starts at index 0, and whatever
    clicks, submissions and edits follow, the index stays within
    [0, N-1], N being the number of steps of the form.  [setStep] with an
    index outside that range changes nothing and dispatches nothing; in
    particular a [next] on the last step and a [prev] on step 0 leave the
    whole state (index, step panels, progress indicators, buttons) as it
    was. *)
Theorem active_index_stays_in_range
    (f : Form) (s0 : State) (fx0 : list Effect) (acts : list Action) :
  initForm f = Some (s0, fx0) →
  activeIndex s0 = 0
  ∧ stepCount (run acts s0).1 = Z.of_nat (length (steps f))
  ∧ 0 ≤ activeIndex (run acts s0).1 ≤ stepCount (run acts s0).1 - 1
  ∧ (∀ k, k < 0 ∨ stepCount (run acts s0).1 - 1 < k →
       setStep k (run acts s0).1 = ((run acts s0).1, []))
  ∧ (activeIndex (run acts s0).1 = stepCount (run acts s0).1 - 1 →
       (step next (run acts s0).1).1 = (run acts s0).1
       ∧ dispatched (step next (run acts s0).1).2 = [])
  ∧ (activeIndex (run acts s0).1 = 0 →
       (step prev (run acts s0).1).1 = (run acts s0).1
       ∧ dispatched (step prev (run acts s0).1).2 = []).
Proof.
  intros Hinit.
  destruct (initForm_Some f s0 fx0 Hinit) as (Hn & H0 & Hc & _ & _).
  assert (Hr0 : in_range s0) by (unfold in_range; lia).
  destruct (run_in_range acts s0 Hr0) as [Hr [Hs _]].
  set (s := (run acts s0).1) in *.
  split; [assumption|]. split; [congruence|]. split; [unfold in_range in Hr; lia|].
  split; [|split].
  - intros k Hk. apply setStep_rejected. lia.
  - apply next_at_last.
  - intros Hz. by rewrite (prev_at_first s Hz).
Qed.

(** On the demo form: two [next] clicks are held back by the invalid second
    step, so the run ends on index 1; running on after the control is
    fixed ends on the last index, where [next] does nothing. *)
Lemma active_index_stays_in_range_witness :
  activeIndex demo_start.1 = 0
  ∧ stepCount (run [next; next; Input 1 []; next; next] demo_start.1).1 = 3
  ∧ activeIndex (run [next; next] demo_start.1).1 = 1
  ∧ activeIndex (run [next; next; Input 1 []; next; next] demo_start.1).1 = 2
  ∧ (step next (run [next; next; Input 1 []; next; next] demo_start.1).1).1
    = (run [next; next; Input 1 []; next; next] demo_start.1).1.
Proof.
  destruct (active_index_stays_in_range demo_form demo_start.1 demo_start.2
              [next; next; Input 1 []; next; next])
    as (H0 & Hn & _ & _ & Hlast & _).
  { reflexivity. }
  split; [exact H0|]. split; [exact Hn|].
  split; [vm_compute; reflexivity|].
  split; [vm_compute; reflexivity|].
  apply Hlast. vm_compute. reflexivity.
Defined.

(** *** Validation gates [next] *)

(** Some control reports invalid. *)
Definition some_invalid (cs : list Control) : Prop :=
  Exists (λ c, reportValidity c = Some false) cs.

Lemma some_invalid_not_valid cs : some_invalid cs → ¬ all_valid cs.
Proof.
  intros He Ha. apply Exists_exists in He as (c & Hin & Hc).
  unfold all_valid in Ha. rewrite Forall_forall in Ha. exact (Ha c Hin Hc).
Qed.

(** Where every control has the method, reporting no invalid control is
    the same as every control reporting valid. *)
Lemma all_valid_reports cs :
  Forall (λ c, is_Some (reportValidity c)) cs →
  (all_valid cs ↔ Forall (λ c, reportValidity c = Some true) cs).
Proof.
  intros Hm. unfold all_valid. rewrite !Forall_forall in *. split; intros H c Hin.
  - destruct (Hm c Hin) as [[] Hb]; [assumption|]. destruct (H c Hin Hb).
  - rewrite (H c Hin). discriminate.
Qed.

Lemma advance_invalid s st :
  at_index (steps (form s)) (activeIndex s) = Some st →
  ¬ all_valid (controls st) →
  ∃ j, advance s = (s, [ReportInvalid j]).
Proof.
  intros Hst Hn. unfold advance. rewrite Hst. simpl.
  destruct (validateControls_invalid 0 _ Hn) as [j ->]. eauto.
Qed.

Lemma advance_valid s st :
  at_index (steps (form s)) (activeIndex s) = Some st →
  all_valid (controls st) →
  advance s = setStep (activeIndex s + 1) s.
Proof.
  intros Hst Hv. unfold advance. rewrite Hst. simpl.
  rewrite (validateControls_valid 0 _ Hv).
  by destruct (setStep (activeIndex s + 1) s).
Qed.

(** C4.  A [next] click on a form whose current step is [st].  If some
    control of the step reports invalid, the click changes nothing: the
    index stays and no event is dispatched.  The index moves only if no
    control reports invalid, and then by exactly one: it becomes
    [activeIndex + 1] when no control reports invalid and that index is
    still a step of the form.  A control without the method (older
    browsers) is skipped by the loop; where all controls have it, as they
    do in every current browser, no control reporting invalid is every
    control reporting valid. *)
Theorem next_requires_valid_step (s : State) (st : Step) :
  at_index (steps (form s)) (activeIndex s) = Some st →
  (some_invalid (controls st) →
     (step next s).1 = s ∧ dispatched (step next s).2 = [])
  ∧ (activeIndex (step next s).1 ≠ activeIndex s →
       all_valid (controls st)
       ∧ (Forall (λ c, is_Some (reportValidity c)) (controls st) →
            Forall (λ c, reportValidity c = Some true) (controls st))
       ∧ activeIndex (step next s).1 = activeIndex s + 1)
  ∧ (all_valid (controls st) → activeIndex s + 1 < stepCount s →
       activeIndex (step next s).1 = activeIndex s + 1).
Proof.
  intros Hst. split; [|split].
  - intros Hinv. apply some_invalid_not_valid in Hinv.
    destruct (advance_invalid s st Hst Hinv) as [j Hj].
    simpl. by rewrite Hj.
  - intros Hmoved.
    destruct (all_valid_dec (controls st)) as [Hv|Hn].
    + split; [assumption|]. split; [intros Hm; by apply all_valid_reports|].
      simpl in *. destruct (advance_cases s) as [[H1 H2] | (H1 & _)];
        destruct (advance s) as [s' fx]; simpl in *; congruence.
    + destruct (advance_invalid s st Hst Hn) as [j Hj].
      simpl in Hmoved. rewrite Hj in Hmoved. simpl in Hmoved. congruence.
  - intros Hv Hlt. simpl. rewrite (advance_valid s st Hst Hv).
    assert (Hr : 0 ≤ activeIndex s + 1 < stepCount s).
    { split; [|assumption]. unfold at_index in Hst.
      destruct (activeIndex s <? 0) eqn:E; [discriminate|]. apply Z.ltb_ge in E. lia. }
    destruct (setStep_accepted _ s Hr) as (s' & -> & Hi & _). exact Hi.
Qed.

(** On the demo form: from step 0 (valid) [next] moves to step 1; from
    step 1 (invalid control) [next] changes nothing. *)
Lemma next_requires_valid_step_witness :
  activeIndex (step next demo_start.1).1 = 1
  ∧ (step next (step next demo_start.1).1).1 = (step next demo_start.1).1
  ∧ dispatched (step next (step next demo_start.1).1).2 = [].
Proof.
  split.
  - edestruct (next_requires_valid_step demo_start.1) as (_ & _ & Hgo).
    { vm_compute. reflexivity. }
    apply Hgo.
    + repeat constructor. discriminate.
    + vm_compute. reflexivity.
  - edestruct (next_requires_valid_step (step next demo_start.1).1) as (Hstay & _).
    { vm_compute. reflexivity. }
    apply Hstay. constructor. reflexivity.
Defined.

(** *** The [amcho:stepchange] events *)

(** No listener changes the [id] attribute of the form or the elements
    named [id] inside it, and so what [form.id || null] gives. *)
Definition same_id (f f' : Form) : Prop :=
  id f' = id f ∧ named_id f' = named_id f.

Lemma same_id_formId f f' : same_id f f' → formId_of f' = formId_of f.
Proof. unfold formId_of, form_id. by intros [-> ->]. Qed.

Lemma setStep_same_id k s : same_id (form s) (form (setStep k s).1).
Proof. unfold setStep. by destruct (_ || _). Qed.

Lemma advance_same_id s : same_id (form s) (form (advance s).1).
Proof.
  unfold advance. destruct (validateStep _) as [[] shown]; [|by split].
  pose proof (setStep_same_id (activeIndex s + 1) s) as H.
  by destruct (setStep _ s).
Qed.

Lemma step_same_id a s : same_id (form s) (form (step a s).1).
Proof.
  destruct a as [[action|]| |i cs]; simpl; try by split.
  - destruct (decide (action = "next")).
    { pose proof (advance_same_id s). by destruct (advance s). }
    destruct (decide (action = "prev")); [|by split].
    pose proof (setStep_same_id (activeIndex s - 1) s). by destruct (setStep _ s).
  - unfold onSubmit. destruct (_ =? _); [by split|].
    pose proof (advance_same_id s). by destruct (advance s).
Qed.

(** The page load of a form with several steps runs [setStep(0)]. *)
Lemma initForm_runs f :
  (1 < length (steps f))%nat →
  ∃ s0, initForm f = Some (s0, [WindowDispatch (stepchange s0)])
        ∧ activeIndex s0 = 0
        ∧ stepCount s0 = Z.of_nat (length (steps f))
        ∧ same_id f (form s0).
Proof.
  intros Hn. unfold initForm. rewrite (proj2 (Nat.leb_gt _ _) Hn).
  match goal with |- context [setStep 0 ?s] =>
    destruct (setStep_accepted 0 s) as (s' & Hs' & Hi & Hc & _);
      [unfold stepCount; simpl; lia|];
    pose proof (setStep_same_id 0 s) as Hid end.
  rewrite Hs' in Hid |- *. exists s'.
  split; [reflexivity|]. split; [exact Hi|]. split; [exact Hc | exact Hid].
Qed.

(** An event is well formed for a form whose [form.id || null] is [fid]:
    it has the event name, [formId] is [fid], and [stepNumber] is
    [stepIndex + 1]. *)
Definition payload_ok (fid : option IdProperty) (ev : CustomEvent) : Prop :=
  type ev = "amcho:stepchange"
  ∧ formId (detail ev) = fid
  ∧ stepNumber (detail ev) = stepIndex (detail ev) + 1.

Lemma stepchange_payload_ok s : payload_ok (formId_of (form s)) (stepchange s).
Proof. by repeat split. Qed.

(** The events of a run are well formed, and the most recent one, if any,
    carries the index the form is on. *)
Lemma run_events acts s :
  Forall (payload_ok (formId_of (form s))) (dispatched (run acts s).2)
  ∧ formId_of (form (run acts s).1) = formId_of (form s)
  ∧ match last (dispatched (run acts s).2) with
    | Some ev => stepIndex (detail ev) = activeIndex (run acts s).1
    | None => activeIndex (run acts s).1 = activeIndex s
    end.
Proof.
  revert s. induction acts as [|a acts IH]; intros s; simpl.
  - repeat split. constructor.
  - assert (Hone : formId_of (form (step a s).1) = formId_of (form s)
                   ∧ Forall (payload_ok (formId_of (form s))) (dispatched (step a s).2)
                   ∧ match last (dispatched (step a s).2) with
                     | Some ev => stepIndex (detail ev) = activeIndex (step a s).1
                     | None => activeIndex (step a s).1 = activeIndex s
                     end).
    { pose proof (same_id_formId _ _ (step_same_id a s)) as Hid.
      split; [exact Hid|].
      destruct (step_cases a s) as [(Hi & Hd & Hs) | (Hi & _ & Hd)]; rewrite Hd; simpl.
      - split; [constructor | assumption].
      - split; [|reflexivity].
        constructor; [|constructor]. rewrite <- Hid. apply stepchange_payload_ok. }
    destruct Hone as (Hid1 & Hok1 & Hlast1).
    destruct (step a s) as [s1 fx1]; simpl in *.
    destruct (IH s1) as (Hok2 & Hid2 & Hlast2).
    destruct (run acts s1) as [s2 fx2]; simpl in *.
    rewrite dispatched_app, last_app. split; [|split].
    + apply Forall_app. split; [assumption|]. by rewrite <- Hid1.
    + congruence.
    + destruct (last (dispatched fx2)); [assumption|].
      destruct (last (dispatched fx1)); congruence.
Qed.

(** [setStep] with an index inside the range, which is what a step
    transition is, dispatches exactly one [amcho:stepchange] event, with
    [form.id || null] as [formId] and with [stepIndex] the new active
    index; with an index outside it (a rejected transition) it dispatches
    none and changes nothing.  So does every run of a listener: the page
    load of a form with several steps does run [setStep(0)] and dispatches
    one event with [stepIndex] 0; a click or submission that moves the
    index dispatches one event carrying the new index, and one that does
    not move it dispatches none. *)
Theorem each_transition_dispatches_one_event (f : Form) (a : Action) (s : State) :
  (∀ k, 0 ≤ k < stepCount s →
     activeIndex (setStep k s).1 = k
     ∧ ∃ ev, (setStep k s).2 = [WindowDispatch ev]
             ∧ type ev = "amcho:stepchange"
             ∧ formId (detail ev) = formId_of (form s)
             ∧ stepIndex (detail ev) = k)
  ∧ (∀ k, k < 0 ∨ stepCount s ≤ k → setStep k s = (s, []))
  ∧ ((1 < length (steps f))%nat →
       ∃ s0 ev, initForm f = Some (s0, [WindowDispatch ev])
                ∧ activeIndex s0 = 0
                ∧ type ev = "amcho:stepchange"
                ∧ formId (detail ev) = formId_of f
                ∧ stepIndex (detail ev) = 0)
  ∧ (activeIndex (step a s).1 ≠ activeIndex s →
       ∃ ev, dispatched (step a s).2 = [ev]
             ∧ type ev = "amcho:stepchange"
             ∧ formId (detail ev) = formId_of (form s)
             ∧ stepIndex (detail ev) = activeIndex (step a s).1)
  ∧ (activeIndex (step a s).1 = activeIndex s → dispatched (step a s).2 = []).
Proof.
  split; [|split; [|split; [|split]]].
  - intros k Hk. pose proof (same_id_formId _ _ (setStep_same_id k s)) as Hid.
    destruct (setStep_accepted k s Hk) as (s' & Hs' & Hi & _).
    rewrite Hs' in Hid |- *.
    split; [assumption|]. eexists. split; [reflexivity|]. simpl. by repeat split.
  - intros k Hk. by apply setStep_rejected.
  - intros Hn. destruct (initForm_runs f Hn) as (s0 & Hinit & H0 & _ & Hid).
    exists s0, (stepchange s0). split; [exact Hinit|]. split; [exact H0|]. simpl.
    split; [reflexivity|]. split; [by apply same_id_formId | exact H0].
  - intros Hmoved.
    destruct (step_cases a s) as [(Hi & _) | (_ & _ & Hd)]; [congruence|].
    eexists. split; [exact Hd|]. simpl.
    split; [reflexivity|]. split; [|reflexivity].
    apply same_id_formId, step_same_id.
  - intros Hsame.
    destruct (step_cases a s) as [(_ & Hd & _) | (Hi & _)]; [assumption | congruence].
Qed.

(** On the demo form: the page load dispatches one event for step 0, the
    first [next] one event for step 1, and the second [next], held back by
    the invalid control, none. *)
Lemma each_transition_dispatches_one_event_witness :
  (∃ s0 ev, initForm demo_form = Some (s0, [WindowDispatch ev])
            ∧ activeIndex s0 = 0
            ∧ type ev = "amcho:stepchange"
            ∧ formId (detail ev) = Some (IdString "signup")
            ∧ stepIndex (detail ev) = 0)
  ∧ (∃ ev, dispatched (step next demo_start.1).2 = [ev]
           ∧ type ev = "amcho:stepchange"
           ∧ formId (detail ev) = Some (IdString "signup")
           ∧ stepIndex (detail ev) = 1)
  ∧ dispatched (step next (step next demo_start.1).1).2 = [].
Proof.
  split; [|split].
  - destruct (each_transition_dispatches_one_event demo_form next demo_start.1)
      as (_ & _ & Hload & _).
    apply Hload. vm_compute. lia.
  - destruct (each_transition_dispatches_one_event demo_form next demo_start.1)
      as (_ & _ & _ & Hmoved & _).
    apply Hmoved. vm_compute. discriminate.
  - destruct (each_transition_dispatches_one_event demo_form next
                (step next demo_start.1).1) as (_ & _ & _ & _ & Hheld).
    apply Hheld. vm_compute. reflexivity.
Defined.

(** Every [amcho:stepchange] event dispatched since the page load of a
    form with several steps carries [stepNumber = stepIndex + 1] and, as
    [formId], what [form.id || null] gives: for a form without an element
    named [id] inside it, the [id] attribute, or [null] when that is empty
    or missing.  After any sequence of events the most recent one carries
    the index the form is on: no code but [setStep] changes the index, and
    [setStep] dispatches right after changing it, so each event carries
    the active index of the moment it is dispatched. *)
Theorem stepchange_payload (f : Form) (acts : list Action) :
  (1 < length (steps f))%nat →
  ∃ s0 fx0,
    initForm f = Some (s0, fx0)
    ∧ Forall (λ ev, stepNumber (detail ev) = stepIndex (detail ev) + 1
                    ∧ formId (detail ev) = formId_of f)
        (dispatched (fx0 ++ (run acts s0).2))
    ∧ (named_id f = [] →
         formId_of f = if decide (id f = "") then None else Some (IdString (id f)))
    ∧ ∃ ev, last (dispatched (fx0 ++ (run acts s0).2)) = Some ev
            ∧ stepIndex (detail ev) = activeIndex (run acts s0).1.
Proof.
  intros Hn.
  destruct (initForm_runs f Hn) as (s0 & Hinit & H0 & _ & Hid).
  apply same_id_formId in Hid.
  exists s0, [WindowDispatch (stepchange s0)]. split; [exact Hinit|].
  destruct (run_events acts s0) as (Hok & _ & Hlast).
  rewrite dispatched_app. simpl dispatched at 1. split; [|split].
  - constructor.
    + rewrite <- Hid. split; reflexivity.
    + rewrite Hid in Hok. eapply Forall_impl; [exact Hok|].
      intros ev (_ & ? & ?). by split.
  - unfold formId_of, form_id. by intros ->.
  - rewrite last_app.
    destruct (last (dispatched (run acts s0).2)) as [ev|]; [eauto|].
    eexists. split; [reflexivity|]. simpl. congruence.
Qed.

(** On a form without id: three events after the page load and two
    successful [next] clicks, all with [formId] null, the last one with
    [stepIndex] 2 and [stepNumber] 3. *)
Definition anonymous_form : Form :=
  {| id := ""; named_id := []; form_el := plain;
     steps := [mkStep plain []; mkStep plain []; mkStep plain []];
     progressSteps := []; prevBtn := None; nextBtn := None; submitBtn := None |}.

Lemma stepchange_payload_witness :
  ∃ s0 fx0,
    initForm anonymous_form = Some (s0, fx0)
    ∧ Forall (λ ev, stepNumber (detail ev) = stepIndex (detail ev) + 1
                    ∧ formId (detail ev) = None)
        (dispatched (fx0 ++ (run [next; next; next] s0).2))
    ∧ length (dispatched (fx0 ++ (run [next; next; next] s0).2)) = 3%nat
    ∧ ∃ ev, last (dispatched (fx0 ++ (run [next; next; next] s0).2)) = Some ev
            ∧ stepIndex (detail ev) = 2.
Proof.
  destruct (stepchange_payload anonymous_form [next; next; next])
    as (s0 & fx0 & Hinit & Hall & _ & ev & Hlast & Hidx); [vm_compute; lia|].
  exists s0, fx0. split; [exact Hinit|].
  vm_compute in Hinit. injection Hinit as <- <-.
  split; [exact Hall|]. split; [reflexivity|].
  exists ev. split; [exact Hlast | exact Hidx].
Defined.

(** *** An element named [id] inside the form *)

(** A hidden [input] named [id], as forms that edit a record have. *)
Definition hidden_id_input : Element :=
  setAttribute "name" "id" (setAttribute "type" "hidden" plain).

(** A two-step form with the id [checkout] and such an input inside. *)
Definition checkout_form : Form :=
  {| id := "checkout"; named_id := [hidden_id_input]; form_el := plain;
     steps := [mkStep plain []; mkStep plain []];
     progressSteps := []; prevBtn := None; nextBtn := None; submitBtn := None |}.

(** A three-step form with the id [profile] and such an input inside, and
    the same form without its id attribute. *)
Definition profile_form : Form :=
  {| id := "profile"; named_id := [hidden_id_input]; form_el := plain;
     steps := [mkStep plain []; mkStep plain []; mkStep plain []];
     progressSteps := []; prevBtn := None; nextBtn := None; submitBtn := None |}.

Definition profile_form_without_id : Form :=
  {| id := ""; named_id := [hidden_id_input]; form_el := plain;
     steps := [mkStep plain []; mkStep plain []; mkStep plain []];
     progressSteps := []; prevBtn := None; nextBtn := None; submitBtn := None |}.

(** C7 (the code departs from it).  On the form [checkout] with a hidden
    input named [id], the page load and the click on next are transitions,
    and each dispatches exactly one [amcho:stepchange] event with the new
    index, as the claim says; but the payload does not carry the
    identifier of the form: [form.id] is the input, by the named
    properties of forms, and [form.id || null] hands that element on as
    [formId].  A form without such an element gets its id, as the demo
    form shows. *)
Theorem transition_payload_carries_control_not_id :
  id checkout_form = "checkout"
  ∧ (∃ s0,
       initForm checkout_form
       = Some (s0, [WindowDispatch
                      {| type := "amcho:stepchange";
                         detail := {| formId := Some (IdElement hidden_id_input);
                                      stepIndex := 0; stepNumber := 1 |} |}])
       ∧ (step next s0).2
         = [PreventDefault;
            WindowDispatch
              {| type := "amcho:stepchange";
                 detail := {| formId := Some (IdElement hidden_id_input);
                              stepIndex := 1; stepNumber := 2 |} |}])
  ∧ Some (IdElement hidden_id_input) ≠ Some (IdString (id checkout_form))
  ∧ formId_of demo_form = Some (IdString "signup").
Proof.
  split; [reflexivity|]. split; [|split; [discriminate | reflexivity]].
  eexists. split; reflexivity.
Qed.

(** The event the code dispatches for index [k] on a form holding the
    hidden input. *)
Definition event_with_control (k : Z) : CustomEvent :=
  {| type := "amcho:stepchange";
     detail := {| formId := Some (IdElement hidden_id_input);
                  stepIndex := k; stepNumber := k + 1 |} |}.

(** C10 (the code departs from it).  In every event dispatched for the
    form [profile], which holds a hidden input named [id], [stepNumber] is
    [stepIndex + 1] as claimed, but [formId] is that input element: neither
    the id of the form nor [null].  The same form without its id attribute
    gets the element too, where the claim says [null].  The defect is the
    one of C7: [form.id] reads a named property of the form before its
    [id]. *)
Theorem formId_is_control_not_id_nor_null :
  id profile_form = "profile"
  ∧ (∃ s0 fx0,
       initForm profile_form = Some (s0, fx0)
       ∧ dispatched (fx0 ++ (run [next; next; prev] s0).2)
         = [event_with_control 0; event_with_control 1; event_with_control 2;
            event_with_control 1])
  ∧ id profile_form_without_id = ""
  ∧ (∃ s0 fx0,
       initForm profile_form_without_id = Some (s0, fx0)
       ∧ dispatched fx0 = [event_with_control 0])
  ∧ (∀ k, formId (detail (event_with_control k)) ≠ Some (IdString (id profile_form))
          ∧ formId (detail (event_with_control k)) ≠ None
          ∧ stepNumber (detail (event_with_control k))
            = stepIndex (detail (event_with_control k)) + 1).
Proof.
  split; [reflexivity|]. split; [|split; [reflexivity|split]].
  - eexists _, _. split; reflexivity.
  - eexists _, _. split; reflexivity.
  - intros k. split; [discriminate|]. split; [discriminate | reflexivity].
Qed.

(** *** What [setStep] shows *)

(** After [setStep(k)] with [k] in range, the panel at position [k], and
    no other, has the class [is-active], and [aria-hidden] is [false] on
    it and [true] on the others; the progress indicator at [k] is active
    and those before it are complete; the previous button is disabled on
    the first step only, the next button hidden on the last step only, and
    the submit button hidden everywhere else. *)
Theorem setStep_shows_one_step (k : Z) (s : State) :
  0 ≤ k < stepCount s →
  (∀ i st, steps (form s) !! i = Some st →
     ∃ st', steps (form (setStep k s).1) !! i = Some st'
       ∧ controls st' = controls st
       ∧ classList_contains "is-active" (panel st') = (Z.of_nat i =? k)
       ∧ attributes (panel st') !! "aria-hidden"
         = Some (if Z.of_nat i =? k then "false" else "true"))
  ∧ (∀ i ind, progressSteps (form s) !! i = Some ind →
       ∃ ind', progressSteps (form (setStep k s).1) !! i = Some ind'
         ∧ classList_contains "is-active" ind' = (Z.of_nat i =? k)
         ∧ classList_contains "is-complete" ind' = (Z.of_nat i <? k))
  ∧ disabled <$> prevBtn (form (setStep k s).1)
    = (λ _, k =? 0) <$> prevBtn (form s)
  ∧ hidden <$> nextBtn (form (setStep k s).1)
    = (λ _, k =? stepCount s - 1) <$> nextBtn (form s)
  ∧ hidden <$> submitBtn (form (setStep k s).1)
    = (λ _, negb (k =? stepCount s - 1)) <$> submitBtn (form s).
Proof.
  intros [Hk0 Hk1]. unfold setStep, stepCount in *.
  rewrite (proj2 (Z.ltb_ge k 0) Hk0), (proj2 (Z.leb_gt _ k) Hk1).
  cbn [orb fst form steps progressSteps prevBtn nextBtn submitBtn].
  split; [|split; [|split; [|split]]].
  - intros i st Hst. rewrite list_lookup_imap, Hst. eexists. split; [reflexivity|].
    unfold showStep. cbn [controls panel]. split; [reflexivity|].
    rewrite contains_setAttribute, contains_toggle, attribute_setAttribute.
    split; [reflexivity|]. by destruct (Z.of_nat i =? k).
  - intros i ind Hind. rewrite list_lookup_imap, Hind. eexists. split; [reflexivity|].
    unfold showProgress. rewrite contains_toggle_ne by done.
    by rewrite !contains_toggle.
  - by destruct (prevBtn (form s)).
  - by destruct (nextBtn (form s)).
  - by destruct (submitBtn (form s)).
Qed.

(** On the demo form after the page load: the first panel is shown, the
    second hidden, and the previous button disabled. *)
Lemma setStep_shows_one_step_witness :
  (∃ st', steps (form demo_start.1) !! 0%nat = Some st'
     ∧ classList_contains "is-active" (panel st') = true
     ∧ attributes (panel st') !! "aria-hidden" = Some "false")
  ∧ (∃ st', steps (form demo_start.1) !! 1%nat = Some st'
       ∧ classList_contains "is-active" (panel st') = false
       ∧ attributes (panel st') !! "aria-hidden" = Some "true")
  ∧ disabled <$> prevBtn (form demo_start.1) = Some true.
Proof.
  destruct (setStep_shows_one_step 0 (mkState (form demo_start.1) 0))
    as (Hsteps & _ & Hprev & _).
  { vm_compute. split; [discriminate | reflexivity]. }
  split; [|split].
  - destruct (Hsteps 0%nat _ eq_refl) as (st' & Hst' & _ & Hact & Hattr).
    exists st'. split; [exact Hst' | split; [exact Hact | exact Hattr]].
  - destruct (Hsteps 1%nat _ eq_refl) as (st' & Hst' & _ & Hact & Hattr).
    exists st'. split; [exact Hst' | split; [exact Hact | exact Hattr]].
  - exact Hprev.
Defined.

(** The page load dispatches one event per form with several steps, each
    with [stepIndex] 0, in document order. *)
Lemma initMultiStepForms_events forms :
  dispatched (initMultiStepForms forms).2
  = stepchange <$> omap (λ o, o) (initMultiStepForms forms).1
  ∧ Forall (λ ev, stepIndex (detail ev) = 0) (dispatched (initMultiStepForms forms).2).
Proof.
  induction forms as [|f forms [IH1 IH2]]; [by split; [|constructor]|].
  cbn [initMultiStepForms]. destruct (initMultiStepForms forms) as [states fx].
  destruct (initForm f) as [[s fx0]|] eqn:Hf; [|by split].
  destruct (initForm_Some f s fx0 Hf) as (_ & H0 & _ & _ & ->).
  cbn [fst snd] in *. rewrite dispatched_app. cbn. rewrite IH1.
  split; [reflexivity|]. constructor; [exact H0 | by rewrite <- IH1].
Qed.

(** A form with at most one step is left alone: no class, no listener, no
    event. *)
Theorem single_step_form_untouched (f : Form) :
  (length (steps f) ≤ 1)%nat → initForm f = None.
Proof.
  intros H. unfold initForm. by rewrite (proj2 (Nat.leb_le _ _) H).
Qed.

Lemma single_step_form_untouched_witness :
  initForm (mkForm "solo" [] plain [mkStep plain []] [] None None None) = None.
Proof. apply single_step_form_untouched. simpl. lia. Defined.

End Wizard.

(** ** JavaScript values, as far as the map script handles them *)

Module Js.

(** A string is its sequence of UTF-16 code units. *)
Definition jsstring := list Z.

(** The code units of an ASCII literal. *)
Definition lit (s : string) : jsstring :=
  (λ c, Z.of_nat (nat_of_ascii c)) <$> list_ascii_of_string s.

(** A number is an IEEE 754 binary64 value. *)
Definition number := spec_float.

Definition prec : Z := 53.
Definition emax : Z := 1024.

(** What [JSON.parse] produces, and [undefined], which reading a missing
    property gives.  An object lists its own properties, each name once. *)
#[local] Unset Elimination Schemes.
Inductive value :=
| Undefined
| Null
| Bool (b : bool)
| Num (x : number)
| Str (s : jsstring)
| Arr (items : list value)
| Obj (fields : list (jsstring * value)).
#[local] Set Elimination Schemes.

Inductive Exn := TypeError | SyntaxError.

(** A computation that returns or throws. *)
Inductive Outcome (A : Type) :=
| Normal (a : A)
| Thrown (e : Exn).
Arguments Normal {A} a.
Arguments Thrown {A} e.

#[global] Instance Outcome_ret : MRet Outcome := λ A a, Normal a.
#[global] Instance Outcome_bind : MBind Outcome := λ A B f m,
  match m with Normal a => f a | Thrown e => Thrown e end.
#[global] Instance Outcome_fmap : FMap Outcome := λ A B f m,
  match m with Normal a => Normal (f a) | Thrown e => Thrown e end.

(** [Array.prototype.map] with a callback that may throw: the first
    exception ends the loop. *)
Fixpoint mapO {A B} (f : A → Outcome B) (l : list A) : Outcome (list B) :=
  match l with
  | [] => Normal []
  | a :: rest => b ← f a; bs ← mapO f rest; Normal (b :: bs)
  end.

Fixpoint str_eqb (a b : jsstring) : bool :=
  match a, b with
  | [], [] => true
  | x :: a', y :: b' => (x =? y) && str_eqb a' b'
  | _, _ => false
  end.

(** The own property [k] of an object. *)
Fixpoint own (k : jsstring) (fields : list (jsstring * value)) : option value :=
  match fields with
  | [] => None
  | (k', v) :: rest => if str_eqb k k' then Some v else own k rest
  end.

(** [CreateDataProperty]: a name that is there already keeps its place and
    takes the new value. *)
Fixpoint define (k : jsstring) (v : value) (fields : list (jsstring * value))
  : list (jsstring * value) :=
  match fields with
  | [] => [(k, v)]
  | (k', v') :: rest =>
      if str_eqb k k' then (k, v) :: rest else (k', v') :: define k v rest
  end.

(** [v.k] for the property names the script reads ([id], [name], [city],
    [location], [image], [lat], [lng]): none of them is a property of a
    string, a number, a boolean or an array, nor of [Object.prototype], so
    only an own property of an object gives a value; reading a property of
    [null] or [undefined] throws. *)
Definition get (v : value) (k : string) : Outcome value :=
  match v with
  | Undefined | Null => Thrown TypeError
  | Obj fields => Normal (default Undefined (own (lit k) fields))
  | _ => Normal Undefined
  end.

Definition is_zero_or_nan (x : number) : bool :=
  match x with S754_zero _ | S754_nan => true | _ => false end.

(** [ToBoolean] *)
Definition truthy (v : value) : bool :=
  match v with
  | Undefined | Null => false
  | Bool b => b
  | Num x => negb (is_zero_or_nan x)
  | Str s => match s with [] => false | _ :: _ => true end
  | Arr _ | Obj _ => true
  end.

(** [a || b] *)
Definition or_else (a b : value) : value := if truthy a then a else b.

(** [Number.isFinite(v)]: no conversion, a value that is not a number is
    not finite. *)
Definition Number_isFinite (v : value) : bool :=
  match v with
  | Num (S754_zero _) | Num (S754_finite _ _ _) => true
  | _ => false
  end.

(** *** Decimal literals to numbers *)

(** The binary64 value nearest to [m * 10^e] (ties to even), for [m >= 0],
    with the sign [neg]: an integer is rounded as it is, a fraction is the
    correctly rounded quotient of two integers. *)
Definition of_decimal (neg : bool) (m e : Z) : number :=
  match m with
  | Z0 => S754_zero neg
  | Zpos p =>
      if 0 <=? e then binary_round prec emax neg (Pos.mul p (Z.to_pos (10 ^ e))) 0
      else
        let '(q, e', l) := SFdiv_core_binary prec emax m 0 (10 ^ (- e)) 0 in
        binary_round_aux prec emax neg q e' l
  | Zneg _ => S754_nan
  end.

Definition is_digit (c : Z) : bool := (48 <=? c) && (c <=? 57).

(** The longest prefix of digits, and what follows it. *)
Fixpoint span_digits (s : jsstring) : list Z * jsstring :=
  match s with
  | c :: rest =>
      if is_digit c then let '(ds, r) := span_digits rest in (c :: ds, r)
      else ([], s)
  | [] => ([], [])
  end.

(** The value of a sequence of digits. *)
Definition digits_value (ds : list Z) : Z :=
  fold_left (λ acc c, 10 * acc + (c - 48)) ds 0.

(** An exponent part [e], [E] followed by an optional sign and at least one
    digit: its value and what follows it; [None] when there is none. *)
Definition exponent_part (s : jsstring) : option (Z * jsstring) :=
  match s with
  | c :: rest =>
      if (c =? 101) || (c =? 69) then
        let '(neg, rest') :=
          match rest with
          | 45 :: r => (true, r)
          | 43 :: r => (false, r)
          | _ => (false, rest)
          end in
        match span_digits rest' with
        | ([], _) => None
        | (ds, r) => Some (if neg then - digits_value ds else digits_value ds, r)
        end
      else None
  | [] => None
  end.

(** *** White space and [trim] *)

(** [WhiteSpace] and [LineTerminator] code units. *)
Definition is_space (c : Z) : bool :=
  List.existsb (Z.eqb c)
    [9; 10; 11; 12; 13; 32; 160; 5760; 8232; 8233; 8239; 8287; 12288; 65279]
  || ((8192 <=? c) && (c <=? 8202)).

Fixpoint trim_start (s : jsstring) : jsstring :=
  match s with
  | c :: rest => if is_space c then trim_start rest else s
  | [] => []
  end.

Definition trim_end (s : jsstring) : jsstring := reverse (trim_start (reverse s)).

(** [s.trim()] *)
Definition trim (s : jsstring) : jsstring := trim_end (trim_start s).

(** [s.charAt(0)] *)
Definition charAt0 (s : jsstring) : jsstring := take 1 s.

(** *** [parseFloat] *)

Fixpoint starts_with (p s : jsstring) : bool :=
  match p, s with
  | [], _ => true
  | a :: p', b :: s' => (a =? b) && starts_with p' s'
  | _ :: _, [] => false
  end.

(** [parseFloat(s)]: leading white space is skipped, then the longest
    prefix that is a decimal literal is read; what follows is ignored, and
    without such a prefix the result is NaN. *)
Definition parseFloat (s : jsstring) : number :=
  let s0 := trim_start s in
  let '(neg, s1) :=
    match s0 with
    | 45 :: r => (true, r)
    | 43 :: r => (false, r)
    | _ => (false, s0)
    end in
  if starts_with (lit "Infinity") s1 then S754_infinity neg
  else
    let '(ip, s2) := span_digits s1 in
    let '(fp, s3) :=
      match s2 with
      | 46 :: r => span_digits r
      | _ => ([], s2)
      end in
    match ip ++ fp with
    | [] => S754_nan
    | ds =>
        let e := match exponent_part s3 with Some (e, _) => e | None => 0 end in
        of_decimal neg (digits_value ds) (e - Z.of_nat (length fp))
    end.

(** *** [JSON.parse] *)

Definition is_json_space (c : Z) : bool :=
  (c =? 32) || (c =? 9) || (c =? 10) || (c =? 13).

Fixpoint skip_ws (s : jsstring) : jsstring :=
  match s with
  | c :: rest => if is_json_space c then skip_ws rest else s
  | [] => []
  end.

Definition hex_digit (c : Z) : option Z :=
  if is_digit c then Some (c - 48)
  else if (97 <=? c) && (c <=? 102) then Some (c - 87)
  else if (65 <=? c) && (c <=? 70) then Some (c - 55)
  else None.

Definition hex4 (a b c d : Z) : option Z :=
  x3 ← hex_digit a; x2 ← hex_digit b; x1 ← hex_digit c; x0 ← hex_digit d;
  Some (4096 * x3 + 256 * x2 + 16 * x1 + x0).

(** The character an escape letter stands for. *)
Definition escape_letter (c : Z) : option Z :=
  if (c =? 34) || (c =? 92) || (c =? 47) then Some c
  else if c =? 98 then Some 8
  else if c =? 102 then Some 12
  else if c =? 110 then Some 10
  else if c =? 114 then Some 13
  else if c =? 116 then Some 9
  else None.

Definition push {A} (c : Z) (r : option (jsstring * A)) : option (jsstring * A) :=
  '(str, rest) ← r; Some (c :: str, rest).

(** A string, read from behind its opening quote: its code units and what
    follows the closing quote. *)
Fixpoint parse_string_body (s : jsstring) : option (jsstring * jsstring) :=
  match s with
  | [] => None
  | c :: rest =>
      if c =? 34 then Some ([], rest)
      else if c =? 92 then
        match rest with
        | [] => None
        | e :: rest' =>
            if e =? 117 then
              match rest' with
              | a :: b :: c' :: d :: rest'' =>
                  match hex4 a b c' d with
                  | Some u => push u (parse_string_body rest'')
                  | None => None
                  end
              | _ => None
              end
            else
              match escape_letter e with
              | Some u => push u (parse_string_body rest')
              | None => None
              end
        end
      else if c <? 32 then None
      else push c (parse_string_body rest)
  end.

(** A JSON number: an optional minus, an integer part without a leading
    zero, an optional fraction and an optional exponent. *)
Definition parse_number (s : jsstring) : option (number * jsstring) :=
  let '(neg, s1) := match s with 45 :: r => (true, r) | _ => (false, s) end in
  let '(ip, s2) := span_digits s1 in
  match ip with
  | [] => None
  | d :: ds =>
      if (d =? 48) && match ds with [] => false | _ :: _ => true end then None
      else
        '(fp, s3) ← match s2 with
                    | 46 :: r =>
                        match span_digits r with
                        | ([], _) => None
                        | (fp, r') => Some (fp, r')
                        end
                    | _ => Some ([], s2)
                    end;
        '(e, s4) ← match s3 with
                   | c :: _ =>
                       if (c =? 101) || (c =? 69) then exponent_part s3
                       else Some (0, s3)
                   | [] => Some (0, s3)
                   end;
        Some (of_decimal neg (digits_value (ip ++ fp)) (e - Z.of_nat (length fp)), s4)
  end.

(** A value, the elements of an array after its opening bracket, and the
    members of an object after its opening brace.  Every call reads at
    least one code unit before it calls again, so the length of the text
    bounds the depth of the calls; [fuel] is that bound. *)
Fixpoint parse_value (fuel : nat) (s : jsstring) {struct fuel}
  : option (value * jsstring) :=
  match fuel with
  | O => None
  | S fuel' =>
      let s' := skip_ws s in
      if starts_with (lit "null") s' then Some (Null, drop 4 s')
      else if starts_with (lit "true") s' then Some (Bool true, drop 4 s')
      else if starts_with (lit "false") s' then Some (Bool false, drop 5 s')
      else
        match s' with
        | [] => None
        | c :: r =>
            if c =? 34 then
              '(str, r') ← parse_string_body r; Some (Str str, r')
            else if c =? 91 then
              match skip_ws r with
              | c' :: r' =>
                  if c' =? 93 then Some (Arr [], r') else parse_items fuel' [] r
              | [] => None
              end
            else if c =? 123 then
              match skip_ws r with
              | c' :: r' =>
                  if c' =? 125 then Some (Obj [], r') else parse_members fuel' [] r
              | [] => None
              end
            else
              '(x, r') ← parse_number s'; Some (Num x, r')
        end
  end
with parse_items (fuel : nat) (acc : list value) (s : jsstring) {struct fuel}
  : option (value * jsstring) :=
  match fuel with
  | O => None
  | S fuel' =>
      '(v, r) ← parse_value fuel' s;
      match skip_ws r with
      | c :: r' =>
          if c =? 44 then parse_items fuel' (acc ++ [v]) r'
          else if c =? 93 then Some (Arr (acc ++ [v]), r')
          else None
      | [] => None
      end
  end
with parse_members (fuel : nat) (acc : list (jsstring * value)) (s : jsstring)
  {struct fuel} : option (value * jsstring) :=
  match fuel with
  | O => None
  | S fuel' =>
      match skip_ws s with
      | c :: r =>
          if c =? 34 then
            '(k, r1) ← parse_string_body r;
            match skip_ws r1 with
            | c1 :: r2 =>
                if c1 =? 58 then
                  '(v, r3) ← parse_value fuel' r2;
                  match skip_ws r3 with
                  | c3 :: r4 =>
                      if c3 =? 44 then parse_members fuel' (define k v acc) r4
                      else if c3 =? 125 then Some (Obj (define k v acc), r4)
                      else None
                  | [] => None
                  end
                else None
            | [] => None
            end
          else None
      | [] => None
      end
  end.

(** [JSON.parse(text)]: the value the whole text spells, or a
    [SyntaxError]. *)
Definition JSON_parse (text : jsstring) : Outcome value :=
  match parse_value (2 * length text + 2) text with
  | Some (v, rest) =>
      match skip_ws rest with
      | [] => Normal v
      | _ => Thrown SyntaxError
      end
  | None => Thrown SyntaxError
  end.

End Js.

(** ** The store map of the home page ([home-map.js]) *)

Module StoreMap.
Import Js.

(** Two built-ins whose results rest on tables that are not modelled: the
    shortest decimal rendering of a number, and the Unicode upper-case
    mapping.  Everything below holds for any such functions. *)
Class Builtins := {
  Number_toString : number → jsstring;
  String_toUpperCase : jsstring → jsstring
}.

(** The normalized store record. *)
Record Store := mkStore {
  id : value;
  name : value;
  city : value;
  location : value;
  image : value;
  lat : value;
  lng : value
}.

(** The options given to [L.divIcon]. *)
Record DivIcon := mkDivIcon {
  className : string;
  html : jsstring;
  iconSize : Z * Z;
  iconAnchor : Z * Z;
  popupAnchor : Z * Z
}.

(** A coordinate pair [[lat, lng]]. *)
Definition LatLng : Type := value * value.

(** What the script does to the page, the console and the map, in the
    order it does it. *)
Inductive Effect :=
| ConsoleWarn (msg : string)
| CreateMap (zoomControl scrollWheelZoom worldCopyJump : bool)
| SetView (center : LatLng) (zoom : Z)
| AddTileLayer (url : string) (maxZoom : Z) (attribution : jsstring)
| AddEventListener (type : string) (scrollWheelZoomEnabled : bool)
| AppendEmptyState (cls text : string)
| AddMarker (at_ : LatLng) (icon : DivIcon)
| BindPopup (content : jsstring)
| FitBounds (bounds : list LatLng) (padding : Z * Z) (maxZoom : Z).

(** The host element; [dataset_stores] is [mapEl.dataset.stores],
    [None] when the element has no [data-stores] attribute. *)
Record MapEl := mkMapEl { dataset_stores : option jsstring }.

(** A statement of the script: it extends the trace of effects and
    returns or throws. *)
Definition M (A : Type) : Type := list Effect → Outcome A * list Effect.

#[global] Instance M_ret : MRet M := λ A a tr, (Normal a, tr).
#[global] Instance M_bind : MBind M := λ A B f m tr,
  match m tr with
  | (Normal a, tr') => f a tr'
  | (Thrown e, tr') => (Thrown e, tr')
  end.

Definition emit (e : Effect) : M unit := λ tr, (Normal (), tr ++ [e]).

Definition lift {A} (o : Outcome A) : M A := λ tr, (o, tr).

(** A loop that threads a local variable through its iterations. *)
Fixpoint foldM {A S} (f : A → S → M S) (l : list A) (s : S) : M S :=
  match l with
  | [] => mret s
  | a :: rest => s' ← f a s; foldM f rest s'
  end.

(** The literal text of a template, written with an apostrophe for each
    double quote. *)
Definition markup (s : string) : jsstring :=
  (λ c, if c =? 39 then 34 else c) <$> lit s.

Definition spaces (n : nat) : jsstring := replicate n 32.
Definition newline : jsstring := [10].

(** [s.replace(/c/g, by)] for a single character [c] *)
Definition replace_all (c : Z) (by_ : jsstring) (s : jsstring) : jsstring :=
  s ≫= (λ x, if x =? c then by_ else [x]).

Definition tiles : Effect :=
  AddTileLayer "https://{s}.tile.openstreetmap.org/{z}/{x}/{y}.png" 18
    (markup "&copy; <a href='https://www.openstreetmap.org/copyright'>OpenStreetMap</a> contributors").

Definition GOA_CENTER : LatLng :=
  (Num (of_decimal false 15399 (-3)), Num (of_decimal false 73974 (-3))).
Definition DEFAULT_ZOOM : Z := 9.

Section Script.
Context {B : Builtins}.

(** [ToString]: an array is its elements joined by commas, [null] and
    [undefined] elements as the empty string; an object is
    [[object Object]] unless it has an own property [toString], which,
    coming from JSON, is not callable and leaves no way to convert. *)
Fixpoint ToString (v : value) : Outcome jsstring :=
  match v with
  | Undefined => Normal (lit "undefined")
  | Null => Normal (lit "null")
  | Bool b => Normal (lit (if b then "true" else "false"))
  | Num x => Normal (Number_toString x)
  | Str s => Normal s
  | Arr items =>
      (fix join (l : list value) : Outcome jsstring :=
         match l with
         | [] => Normal []
         | x :: rest =>
             a ← match x with
                 | Undefined | Null => Normal []
                 | _ => ToString x
                 end;
             match rest with
             | [] => Normal a
             | _ => b ← join rest; Normal (a ++ lit "," ++ b)
             end
         end) items
  | Obj fields =>
      match own (lit "toString") fields with
      | Some _ => Thrown TypeError
      | None => Normal (lit "[object Object]")
      end
  end.

(** [typeof v === "string" ? parseFloat(v) : v] *)
Definition coordinate (v : value) : value :=
  match v with
  | Str s => Num (parseFloat s)
  | _ => v
  end.

(** The callback of [stores.map]. *)
Definition normalize (store : value) : Outcome Store :=
  i ← get store "id";
  n ← get store "name";
  c ← get store "city";
  l ← get store "location";
  im ← get store "image";
  la ← get store "lat";
  ln ← get store "lng";
  Normal {| id := i;
            name := or_else n (Str (lit "Store"));
            city := or_else c (Str []);
            location := or_else l (Str []);
            image := or_else im (Str []);
            lat := coordinate la;
            lng := coordinate ln |}.

(** The callback of [filter]. *)
Definition has_coordinates (store : Store) : bool :=
  Number_isFinite (lat store) && Number_isFinite (lng store).

(** [stores.map(...).filter(...)]: only an array has a [map] method. *)
Definition normalizedStores (stores : value) : Outcome (list Store) :=
  match stores with
  | Arr items => ns ← mapO normalize items; Normal (List.filter has_coordinates ns)
  | _ => Thrown TypeError
  end.

Definition escapeAttr (str : value) : Outcome jsstring :=
  s ← ToString (or_else str (Str []));
  Normal (replace_all 62 (lit "&gt;")
            (replace_all 60 (lit "&lt;")
               (replace_all 34 (lit "&quot;")
                  (replace_all 38 (lit "&amp;") s)))).

(** [(store.name || "S").trim().charAt(0).toUpperCase() || "S"]; only a
    string has a [trim] method. *)
Definition initial_of (store : Store) : Outcome jsstring :=
  match or_else (name store) (Str (lit "S")) with
  | Str s =>
      let up := String_toUpperCase (charAt0 (trim s)) in
      Normal (match up with [] => lit "S" | _ => up end)
  | _ => Thrown TypeError
  end.

Definition buildStoreIcon (store : Store) : Outcome DivIcon :=
  initial ← initial_of store;
  let hasImage := truthy (image store) in
  photoHtml ←
    (if hasImage then
       src ← escapeAttr (image store);
       alt ← escapeAttr (name store);
       Normal (markup "<img src='" ++ src ++ markup "' alt='" ++ alt
               ++ markup " thumbnail' loading='lazy' />")
     else Normal (markup "<span>" ++ initial ++ markup "</span>"));
  let extraClass := if hasImage then lit " map-pin__inner--photo" else [] in
  Normal {| className := "map-pin leaflet-div-icon";
            html := markup "<div class='map-pin__inner" ++ extraClass ++ markup "'>"
                    ++ photoHtml ++ markup "</div>";
            iconSize := (34, 44);
            iconAnchor := (17, 44);
            popupAnchor := (0, -42) |}.

(** [[store.location, store.city].filter(Boolean).join(", ")] *)
Definition labelLocation (store : Store) : Outcome jsstring :=
  match List.filter truthy [location store; city store] with
  | [] => Normal []
  | [a] => ToString a
  | a :: b :: _ => x ← ToString a; y ← ToString b; Normal (x ++ lit ", " ++ y)
  end.

(** The template of the popup, before [trim]. *)
Definition popupHtml (store : Store) : Outcome jsstring :=
  label ← labelLocation store;
  n ← ToString (name store);
  l ← ToString (or_else (Str label) (Str (lit "Goa")));
  i ← ToString (id store);
  Normal (newline ++ spaces 6 ++ markup "<div class='home-map-popup'>"
          ++ newline ++ spaces 8 ++ markup "<strong>" ++ n ++ markup "</strong><br />"
          ++ newline ++ spaces 8 ++ l ++ markup "<br />"
          ++ newline ++ spaces 8 ++ markup "<a href='/store/" ++ i
          ++ markup "' target='_blank' rel='noopener'>Open store page</a>"
          ++ newline ++ spaces 6 ++ markup "</div>"
          ++ newline ++ spaces 4).

Definition coords (store : Store) : LatLng := (lat store, lng store).

(** The body of [normalizedStores.forEach]; [bounds] is the array the loop
    pushes to. *)
Definition plot (store : Store) (bounds : list LatLng) : M (list LatLng) :=
  icon ← lift (buildStoreIcon store);
  emit (AddMarker (coords store) icon);;
  content ← lift (popupHtml store);
  emit (BindPopup (trim content));;
  mret (bounds ++ [coords store]).

(** [mapEl.dataset.stores || "[]"] *)
Definition dataset_text (el : MapEl) : jsstring :=
  match dataset_stores el with
  | Some (c :: s) => c :: s
  | _ => lit "[]"
  end.

(** The [try] and [catch] around [JSON.parse]. *)
Definition read_stores (el : MapEl) : M value :=
  match JSON_parse (dataset_text el) with
  | Normal v => mret v
  | Thrown _ =>
      emit (ConsoleWarn "Failed to parse homepage stores dataset");;
      mret (Arr [])
  end.

(** The final view.  In the second branch [bounds] has one element; with
    none there would be no centre to hand to the map. *)
Definition frame (bounds : list LatLng) : M unit :=
  if (1 <? length bounds)%nat then emit (FitBounds bounds (30, 30) 15)
  else
    match bounds !! 0%nat with
    | Some centre => emit (SetView centre 13)
    | None => lift (Thrown TypeError)
    end.

(** The script.  [mapEl] is the element with id [home-stores-map], if the
    page has one, and [leaflet] tells whether [window.L] is there. *)
Definition script (mapEl : option MapEl) (leaflet : bool) : M unit :=
  match mapEl with
  | None => mret ()
  | Some el =>
      if negb leaflet then mret ()
      else
        stores ← read_stores el;
        normalized ← lift (normalizedStores stores);
        emit (CreateMap true false false);;
        emit (SetView GOA_CENTER DEFAULT_ZOOM);;
        emit tiles;;
        emit (AddEventListener "focus" true);;
        emit (AddEventListener "blur" false);;
        match normalized with
        | [] =>
            emit (AppendEmptyState "goa-map__empty"
                    "Stores with geocoded locations will appear here soon.")
        | _ =>
            bounds ← foldM plot normalized [];
            frame bounds
        end
  end.

(** One page load. *)
Definition render (mapEl : option MapEl) (leaflet : bool) : Outcome unit * list Effect :=
  script mapEl leaflet [].

(** A page whose map element carries the text [s] as its dataset. *)
Definition page_with (s : jsstring) : option MapEl := Some {| dataset_stores := Some s |}.

(** The markers, popups and view commands of a trace. *)
Definition markers (tr : list Effect) : list LatLng :=
  omap (λ e, match e with AddMarker c _ => Some c | _ => None end) tr.

Definition icons (tr : list Effect) : list DivIcon :=
  omap (λ e, match e with AddMarker _ i => Some i | _ => None end) tr.

Definition popups (tr : list Effect) : list jsstring :=
  omap (λ e, match e with BindPopup h => Some h | _ => None end) tr.

Definition is_view (e : Effect) : bool :=
  match e with SetView _ _ | FitBounds _ _ _ => true | _ => false end.

(** The view the map is left with: the last view command. *)
Definition final_view (tr : list Effect) : option Effect :=
  last (List.filter is_view tr).

(** The placeholders appended to the map element. *)
Definition empty_states (tr : list Effect) : list (string * string) :=
  omap (λ e, match e with AppendEmptyState c t => Some (c, t) | _ => None end) tr.

Definition warnings (tr : list Effect) : list string :=
  omap (λ e, match e with ConsoleWarn m => Some m | _ => None end) tr.

(** What the script does before it looks at the stores. *)
Definition setup : list Effect :=
  [CreateMap true false false;
   SetView GOA_CENTER DEFAULT_ZOOM;
   tiles;
   AddEventListener "focus" true;
   AddEventListener "blur" false].

Definition placeholder : Effect :=
  AppendEmptyState "goa-map__empty"
    "Stores with geocoded locations will appear here soon.".





(** *** The statements of the script, one by one *)

Lemma plot_eq store bounds tr :
  plot store bounds tr =
  match buildStoreIcon store with
  | Thrown e => (Thrown e, tr)
  | Normal icon =>
      match popupHtml store with
      | Thrown e => (Thrown e, tr ++ [AddMarker (coords store) icon])
      | Normal content =>
          (Normal (bounds ++ [coords store]),
           (tr ++ [AddMarker (coords store) icon]) ++ [BindPopup (trim content)])
      end
  end.
Proof.
  unfold plot, mbind, M_bind, lift, emit, mret, M_ret.
  destruct (buildStoreIcon store); [|reflexivity].
  destruct (popupHtml store); reflexivity.
Qed.

Lemma frame_eq bounds tr :
  frame bounds tr =
  match bounds with
  | [] => (Thrown TypeError, tr)
  | [centre] => (Normal (), tr ++ [SetView centre 13])
  | _ => (Normal (), tr ++ [FitBounds bounds (30, 30) 15])
  end.
Proof. destruct bounds as [|c [|c' bs]]; reflexivity. Qed.

Lemma script_eq el :
  render (Some el) true =
  match JSON_parse (dataset_text el) with
  | Thrown _ =>
      (Normal (),
       (ConsoleWarn "Failed to parse homepage stores dataset" :: setup) ++ [placeholder])
  | Normal stores =>
      match normalizedStores stores with
      | Thrown e => (Thrown e, [])
      | Normal [] => (Normal (), setup ++ [placeholder])
      | Normal (s :: ns) =>
          match foldM plot (s :: ns) [] setup with
          | (Normal bounds, tr) => frame bounds tr
          | (Thrown e, tr) => (Thrown e, tr)
          end
      end
  end.
Proof.
  unfold render, script, read_stores. cbn [negb].
  destruct (JSON_parse (dataset_text el)) as [stores|e]; [|reflexivity].
  unfold mbind at 1. unfold M_bind at 1. unfold mret at 1. unfold M_ret at 1.
  unfold mbind at 1. unfold M_bind at 1. unfold lift at 1.
  destruct (normalizedStores stores) as [[|s ns]|e]; reflexivity.
Qed.

Lemma render_without_map leaflet : render None leaflet = (Normal (), []).
Proof. reflexivity. Qed.

Lemma render_without_leaflet mapEl : render mapEl false = (Normal (), []).
Proof. destruct mapEl; reflexivity. Qed.

(** *** Records of the right types are plotted without an exception *)








(** *** The loop over the stores *)


Lemma empty_states_app tr tr' : empty_states (tr ++ tr') = empty_states tr ++ empty_states tr'.
Proof. apply omap_app. Qed.

Lemma foldM_plot_cons s ns bounds tr :
  foldM plot (s :: ns) bounds tr =
  match plot s bounds tr with
  | (Normal b, tr') => foldM plot ns b tr'
  | (Thrown e, tr') => (Thrown e, tr')
  end.
Proof. reflexivity. Qed.


(** *** Normalizing and filtering *)





(** *** The shape of a page load *)




(** The dataset of the examples below: a shop with text coordinates, one
    with numbers, one without latitude, one whose latitude is no number,
    and one whose longitude overflows. *)
Definition example_dataset : jsstring :=
  markup "[{'id':'s1','name':'Cafe','lat':'15.4','lng':'73.8'},
           {'id':'s2','name':'Bakery','city':'Panaji','lat':15.5,'lng':73.9},
           {'id':'s3','name':'No latitude','lng':'73.8'},
           {'id':'s4','name':'Words','lat':'north','lng':'73.8'},
           {'id':'s5','name':'Too far','lat':'15.4','lng':'1e999'}]".

Definition example_items : list value :=
  match JSON_parse example_dataset with
  | Normal (Arr items) => items
  | _ => []
  end.


(** Stand-ins for the two built-ins in the examples, whose names are Basic
    Latin and whose text fields hold no number: the letters a to z are
    upper-cased, and no number is ever rendered. *)
Definition example_builtins : Builtins :=
  {| Number_toString := λ _, [];
     String_toUpperCase := fmap (λ c, if (97 <=? c) && (c <=? 122) then c - 32 else c) |}.

Definition example_kept : list Store :=
  match normalizedStores (Arr example_items) with
  | Normal kept => kept
  | Thrown _ => []
  end.



(** The example of the specification. *)
Definition markup_dataset : jsstring :=
  markup "[{'id':'s1','name':'<b>X</b>','lat':'15.4','lng':'73.8'}]".

End Script.








(** *** Escaping *)

Lemma replace_all_elem c by_ s d :
  d ∈ replace_all c by_ s → (d ≠ c ∧ d ∈ s) ∨ d ∈ by_.
Proof.
  unfold replace_all. rewrite list_elem_of_bind. intros (x & Hd & Hx).
  destruct (x =? c) eqn:E; [by right|].
  apply Z.eqb_neq in E. apply list_elem_of_singleton in Hd as ->. by left.
Qed.

Lemma entity_elem d (e : jsstring) :
  d ∈ e →
  e = lit "&amp;" ∨ e = lit "&quot;" ∨ e = lit "&lt;" ∨ e = lit "&gt;" →
  d ≠ 60 ∧ d ≠ 62 ∧ d ≠ 34.
Proof.
  intros Hd [-> | [-> | [-> | ->]]];
    vm_compute in Hd;
    repeat (apply elem_of_cons in Hd as [->|Hd]);
    try (by apply not_elem_of_nil in Hd); lia.
Qed.

(** Whatever [escapeAttr] returns holds no [<], no [>] and no double
    quote, so it cannot leave the attribute or the text it is put in. *)
Lemma escapeAttr_no_markup (B : Builtins) v t :
  escapeAttr v = Normal t → ∀ d, d ∈ t → d ≠ 60 ∧ d ≠ 62 ∧ d ≠ 34.
Proof.
  unfold escapeAttr. destruct (ToString _) as [s|]; [|discriminate].
  cbn [mbind Outcome_bind]. intros [= <-] d Hd.
  apply replace_all_elem in Hd as [[H62 Hd] | Hd].
  2:{ apply (entity_elem d _ Hd). tauto. }
  apply replace_all_elem in Hd as [[H60 Hd] | Hd].
  2:{ apply (entity_elem d _ Hd). tauto. }
  apply replace_all_elem in Hd as [[H34 Hd] | Hd].
  2:{ apply (entity_elem d _ Hd). tauto. }
  by repeat split.
Qed.

Lemma escapeAttr_no_markup_witness :
  Forall (λ d, d ≠ 60 ∧ d ≠ 62 ∧ d ≠ 34) (lit "&lt;b&gt;X&lt;/b&gt; &amp; &quot;Y&quot;").
Proof.
  apply Forall_forall. intros d Hd.
  apply (escapeAttr_no_markup example_builtins (Str (markup "<b>X</b> & 'Y'")) _
           ltac:(vm_compute; reflexivity) d Hd).
Defined.

(** The photo marker is built from escaped text only: what stands between
    the fixed pieces of its markup is the escaped image address and the
    escaped name. *)
Lemma photo_icon_escaped (B : Builtins) s icon :
  truthy (image s) = true →
  buildStoreIcon s = Normal icon →
  ∃ src alt,
    escapeAttr (image s) = Normal src ∧ escapeAttr (name s) = Normal alt
    ∧ html icon = markup "<div class='map-pin__inner" ++ lit " map-pin__inner--photo"
                  ++ markup "'>"
                  ++ (markup "<img src='" ++ src ++ markup "' alt='" ++ alt
                      ++ markup " thumbnail' loading='lazy' />")
                  ++ markup "</div>".
Proof.
  intros Him. unfold buildStoreIcon. rewrite Him.
  destruct (initial_of s); [|discriminate]. cbn [mbind Outcome_bind].
  destruct (escapeAttr (image s)) as [src|]; [|discriminate]. cbn [mbind Outcome_bind].
  destruct (escapeAttr (name s)) as [alt|]; [|discriminate]. cbn [mbind Outcome_bind].
  intros [= <-]. exists src, alt. split; [reflexivity|]. split; [reflexivity|].
  reflexivity.
Qed.

(** C1 (the code departs from it).  On the example of the specification,
    a store named [<b>X</b>], the popup bound to the marker holds the name
    as it came, markup included, between [<strong>] and [</strong>]:
    [popupHtml] interpolates [store.name] (and the location label and
    [store.id]) without [escapeAttr], which only [buildStoreIcon] calls.
    The escaped name would have been [&lt;b&gt;X&lt;/b&gt;].  The marker
    of a store without image shows the first character of the name, here
    [<], and that too goes into the markup as it is. *)
Theorem popup_name_not_escaped (B : Builtins) :
  popups (render (page_with markup_dataset) true).2
  = [markup "<div class='home-map-popup'>"
     ++ newline ++ spaces 8 ++ markup "<strong>" ++ lit "<b>X</b>" ++ markup "</strong><br />"
     ++ newline ++ spaces 8 ++ lit "Goa" ++ markup "<br />"
     ++ newline ++ spaces 8 ++ markup "<a href='/store/" ++ lit "s1"
     ++ markup "' target='_blank' rel='noopener'>Open store page</a>"
     ++ newline ++ spaces 6 ++ markup "</div>"]
  ∧ escapeAttr (Str (lit "<b>X</b>")) = Normal (lit "&lt;b&gt;X&lt;/b&gt;")
  ∧ html <$> icons (render (B := example_builtins) (page_with markup_dataset) true).2
    = [markup "<div class='map-pin__inner'><span>" ++ lit "<" ++ markup "</span></div>"].
Proof. repeat split; vm_compute; reflexivity. Qed.

(** *** Datasets that are absent or do not parse *)

Lemma absent_dataset_empty_state (B : Builtins) :
  render (Some {| dataset_stores := None |}) true = (Normal (), setup ++ [placeholder])
  ∧ render (page_with []) true = (Normal (), setup ++ [placeholder]).
Proof. split; reflexivity. Qed.

Lemma unparsable_dataset_empty_state (B : Builtins) el e :
  JSON_parse (dataset_text el) = Thrown e →
  render (Some el) true
  = (Normal (),
     (ConsoleWarn "Failed to parse homepage stores dataset" :: setup) ++ [placeholder]).
Proof. intros H. by rewrite script_eq, H. Qed.

Lemma unparsable_dataset_empty_state_witness :
  render (B := example_builtins) (page_with (lit "[{oops")) true
  = (Normal (),
     (ConsoleWarn "Failed to parse homepage stores dataset" :: setup) ++ [placeholder]).
Proof.
  apply (unparsable_dataset_empty_state example_builtins
           {| dataset_stores := Some (lit "[{oops") |} SyntaxError).
  vm_compute. reflexivity.
Defined.

(** A dataset that parses to something other than an array ends the script
    at [stores.map], before the map exists. *)
Lemma non_array_dataset_throws (B : Builtins) el v :
  JSON_parse (dataset_text el) = Normal v →
  (∀ items, v ≠ Arr items) →
  render (Some el) true = (Thrown TypeError, []).
Proof.
  intros H Hv. rewrite script_eq, H.
  destruct v; try reflexivity. destruct (Hv items eq_refl).
Qed.

(** C2 (the code departs from it).  Only a text that does not parse is
    recovered from.  A dataset that parses to an object, to [null], or to
    an array holding [null] makes the script throw a [TypeError] that
    nothing catches: [stores.map] does not exist, or [store.id] reads a
    property of [null].  The script ends there, before the map is created:
    no warning, no placeholder.  A text that does not parse, for
    comparison, gets the warning and the placeholder. *)
Theorem malformed_dataset_not_recovered (B : Builtins) :
  render (page_with (lit "{}")) true = (Thrown TypeError, [])
  ∧ render (page_with (lit "null")) true = (Thrown TypeError, [])
  ∧ render (page_with (lit "[null]")) true = (Thrown TypeError, [])
  ∧ render (page_with (lit "not json")) true
    = (Normal (),
       (ConsoleWarn "Failed to parse homepage stores dataset" :: setup) ++ [placeholder]).
Proof. repeat split; vm_compute; reflexivity. Qed.

End StoreMap.

(** ** More on the sidebar: how its operations compose *)

Module SidebarLaws.
Import Dom Sidebar.

(** [isMobileDevice] and [isTabletDevice] ([main.js], lines 50-56), reading
    the width of the window. *)
Definition isMobileDevice (p : Page) : bool := innerWidth p <=? 768.

Definition isTabletDevice (p : Page) : bool :=
  (innerWidth p <=? 1024) && (768 <? innerWidth p).

(** A sequence of events, handled one after the other. *)
Fixpoint runs (evs : list Event) (p : Page) : Page :=
  match evs with
  | [] => p
  | ev :: rest => runs rest (handle ev p)
  end.

(** A page whose toggle button is missing: the click listener is never
    registered. *)
Definition page_without_toggle : Page :=
  {| mobileMenuToggle := None; mobileSidebar := Some plain;
     sidebarClose := Some plain; sidebarOverlay := Some plain;
     sidebarLinks := []; body_overflow := ""; innerWidth := 600 |}.

(** *** The class list as a set *)

Lemma element_eq (e e' : Element) :
  classList e = classList e' → attributes e = attributes e' →
  disabled e = disabled e' → hidden e = hidden e' → e = e'.
Proof. destruct e, e'; simpl; intros; subst; reflexivity. Qed.

Lemma remove_add c e : classList_remove c (classList_add c e) = classList_remove c e.
Proof.
  apply element_eq; try reflexivity. simpl. apply set_eq. intros x.
  rewrite !elem_of_difference, elem_of_union, elem_of_singleton. tauto.
Qed.

Lemma add_remove c e : classList_add c (classList_remove c e) = classList_add c e.
Proof.
  apply element_eq; try reflexivity. simpl. apply set_eq. intros x.
  rewrite !elem_of_union, elem_of_difference, elem_of_singleton.
  destruct (decide (x = c)); tauto.
Qed.

Lemma add_add c e : classList_add c (classList_add c e) = classList_add c e.
Proof.
  apply element_eq; try reflexivity. simpl. apply set_eq. intros x.
  rewrite !elem_of_union. tauto.
Qed.

Lemma remove_remove c e : classList_remove c (classList_remove c e) = classList_remove c e.
Proof.
  apply element_eq; try reflexivity. simpl. apply set_eq. intros x.
  rewrite !elem_of_difference. tauto.
Qed.

Lemma remove_absent c e : classList_contains c e = false → classList_remove c e = e.
Proof.
  intros H. apply bool_decide_eq_false in H.
  apply element_eq; try reflexivity. simpl. apply set_eq. intros x.
  rewrite elem_of_difference, elem_of_singleton. split; [tauto|].
  intros Hx. split; [assumption | congruence].
Qed.

Lemma deactivate_activate o : deactivate (activate o) = deactivate o.
Proof. destruct o; simpl; [|reflexivity]. by rewrite remove_add. Qed.

Lemma activate_deactivate o : activate (deactivate o) = activate o.
Proof. destruct o; simpl; [|reflexivity]. by rewrite add_remove. Qed.

Lemma activate_activate o : activate (activate o) = activate o.
Proof. destruct o; simpl; [|reflexivity]. by rewrite add_add. Qed.

Lemma deactivate_deactivate o : deactivate (deactivate o) = deactivate o.
Proof. destruct o; simpl; [|reflexivity]. by rewrite remove_remove. Qed.

Lemma deactivate_inactive o : active_of o ≠ Some true → deactivate o = o.
Proof.
  destruct o as [e|]; simpl; [|reflexivity]. intros H.
  rewrite remove_absent; [reflexivity|].
  unfold active_of, class_of in H. simpl in H.
  destruct (classList_contains "active" e); congruence.
Qed.

Lemma close_open p : closeSidebar (openSidebar p) = closeSidebar p.
Proof. unfold closeSidebar, openSidebar; simpl. by rewrite !deactivate_activate. Qed.

Lemma open_close p : openSidebar (closeSidebar p) = openSidebar p.
Proof. unfold closeSidebar, openSidebar; simpl. by rewrite !activate_deactivate. Qed.

Lemma open_open p : openSidebar (openSidebar p) = openSidebar p.
Proof. unfold openSidebar; simpl. by rewrite !activate_activate. Qed.

Lemma close_close p : closeSidebar (closeSidebar p) = closeSidebar p.
Proof. unfold closeSidebar; simpl. by rewrite !deactivate_deactivate. Qed.

Lemma close_closed p : all_closed p → closeSidebar p = p.
Proof.
  intros [Hall Hbody]. unfold tracked in Hall.
  inversion Hall as [|? ? H1 Hall1]; subst.
  inversion Hall1 as [|? ? H2 Hall2]; subst.
  inversion Hall2 as [|? ? H3 _]; subst.
  destruct p; simpl in *. unfold closeSidebar; simpl.
  rewrite !deactivate_inactive by assumption. by subst.
Qed.

(** What a page shows of its sidebar: two pages agree when each tracked
    element is there on both or on neither, carries the same classes on
    both (class name by class name), and the body overflow is the same. *)
Definition same_classes (p q : Page) : Prop :=
  Forall2 (λ o o', ∀ c, class_of c o' = class_of c o) (tracked p) (tracked q)
  ∧ body_overflow q = body_overflow p.

Lemma same_classes_refl p : same_classes p p.
Proof. split; [|reflexivity]. unfold tracked. by repeat constructor. Qed.

(** The last of two sidebar operations decides what the page shows:
    opening and closing only add and remove one class, and set one style,
    so an earlier operation leaves no trace in the classes of the tracked
    elements or in the body overflow.  On a page with nothing open,
    opening and closing again leaves every element with the classes it
    had, and the overflow as it was. *)
Theorem last_sidebar_operation_wins (p : Page) :
  same_classes (closeSidebar p) (closeSidebar (openSidebar p))
  ∧ same_classes (openSidebar p) (openSidebar (closeSidebar p))
  ∧ same_classes (openSidebar p) (openSidebar (openSidebar p))
  ∧ same_classes (closeSidebar p) (closeSidebar (closeSidebar p))
  ∧ (all_closed p → same_classes p (closeSidebar (openSidebar p))).
Proof.
  rewrite close_open, open_close, open_open, close_close.
  do 4 (split; [apply same_classes_refl|]).
  intros H. rewrite (close_closed p H). apply same_classes_refl.
Qed.

Lemma last_sidebar_operation_wins_witness :
  same_classes (closed_page 600) (closeSidebar (openSidebar (closed_page 600))).
Proof.
  apply (last_sidebar_operation_wins (closed_page 600)).
  split; [|reflexivity]. repeat constructor; vm_compute; discriminate.
Defined.

(** *** The toggle button *)

Lemma panel_active_open p :
  is_Some (mobileSidebar p) → panel_active (openSidebar p) = true.
Proof.
  intros [e He]. unfold panel_active, openSidebar; simpl. rewrite He. simpl.
  apply contains_add.
Qed.

Lemma panel_active_close p : panel_active (closeSidebar p) = false.
Proof.
  unfold panel_active, closeSidebar; simpl.
  destruct (mobileSidebar p); simpl; [apply contains_remove | reflexivity].
Qed.

(** A click on the toggle button of a page that has the button and the
    panel flips the panel: a closed sidebar is opened in full, an open one
    closed in full.  Without the button or without the panel the listener
    was never registered, and the click changes nothing. *)
Theorem toggle_click_flips_panel (p : Page) :
  (is_Some (mobileMenuToggle p) → is_Some (mobileSidebar p) →
     panel_active (handle ToggleClick p) = negb (panel_active p)
     ∧ (panel_active p = false → all_open (handle ToggleClick p))
     ∧ (panel_active p = true → all_closed (handle ToggleClick p)))
  ∧ (mobileMenuToggle p = None ∨ mobileSidebar p = None → handle ToggleClick p = p).
Proof.
  split.
  - intros [t Ht] [panel Hp]. simpl. unfold onToggleClick. rewrite Ht, Hp.
    assert (Hact : panel_active p = classList_contains "active" panel).
    { unfold panel_active. by rewrite Hp. }
    rewrite Hact. destruct (classList_contains "active" panel).
    + split; [apply panel_active_close|].
      split; [discriminate | intros _; apply closeSidebar_all_closed].
    + split; [apply panel_active_open; by rewrite Hp|].
      split; [intros _; apply openSidebar_all_open | discriminate].
  - intros [Ht | Hp]; simpl; unfold onToggleClick.
    + by rewrite Ht.
    + rewrite Hp. by destruct (mobileMenuToggle p).
Qed.

Lemma toggle_click_flips_panel_witness :
  panel_active (handle ToggleClick (closed_page 600)) = true
  ∧ panel_active (handle ToggleClick (handle ToggleClick (closed_page 600))) = false
  ∧ handle ToggleClick page_without_toggle = page_without_toggle.
Proof.
  split; [|split].
  - destruct (toggle_click_flips_panel (closed_page 600)) as [Hflip _].
    destruct Hflip as (Hflip & _); [by eexists | by eexists |]. exact Hflip.
  - destruct (toggle_click_flips_panel (handle ToggleClick (closed_page 600)))
      as [Hflip _].
    destruct Hflip as (Hflip & _); [by eexists | by eexists |].
    rewrite Hflip. vm_compute. reflexivity.
  - apply (toggle_click_flips_panel page_without_toggle). by left.
Defined.

(** *** The scroll lock follows the panel *)

(** What each listener does to the page, case by case. *)
Lemma handle_shape ev p :
  sidebar_state (handle ev p) = sidebar_state p
  ∨ (∃ q, handle ev p = openSidebar q ∧ is_Some (mobileSidebar q))
  ∨ (∃ q, handle ev p = closeSidebar q).
Proof.
  destruct ev as [| | |i|w]; simpl.
  - unfold onToggleClick.
    destruct (mobileMenuToggle p); [|by left].
    destruct (mobileSidebar p) as [panel|] eqn:Hp; [|by left].
    destruct (classList_contains "active" panel); [right; right; eauto|].
    right; left. exists p. rewrite Hp. eauto.
  - unfold onCloseClick. destruct (sidebarClose p); [right; right; eauto | by left].
  - unfold onOverlayClick. destruct (sidebarOverlay p); [right; right; eauto | by left].
  - unfold onLinkClick. destruct (sidebarLinks p !! i); [right; right; eauto | by left].
  - unfold onResize. destruct (_ && _); [right; right; eauto | by left].
Qed.

(** The panel is shown and the page does not scroll, or the panel is not
    shown and the page scrolls. *)
Definition in_sync (p : Page) : Prop :=
  (panel_active p = true ∧ all_open p) ∨ (panel_active p = false ∧ all_closed p).

Lemma in_sync_state p q : sidebar_state q = sidebar_state p → in_sync p → in_sync q.
Proof.
  unfold sidebar_state, tracked. intros [= H1 H2 H3 H4].
  unfold in_sync, all_open, all_closed, panel_active, tracked.
  by rewrite H1, H2, H3, H4.
Qed.

Lemma handle_in_sync ev p : in_sync p → in_sync (handle ev p).
Proof.
  intros Hp. destruct (handle_shape ev p) as [H | [(q & -> & Hq) | [q ->]]].
  - by apply (in_sync_state p).
  - left. split; [by apply panel_active_open | apply openSidebar_all_open].
  - right. split; [apply panel_active_close | apply closeSidebar_all_closed].
Qed.

(** Starting from a page on which nothing is open, whatever is clicked and
    however the window is resized, the page never scrolls behind an open
    panel and is never locked behind a closed one: the body overflow is
    [hidden] exactly when the panel is active, and then the overlay and the
    button are active too. *)
Theorem scroll_lock_follows_panel (evs : list Event) (p : Page) :
  all_closed p →
  in_sync (runs evs p)
  ∧ (body_overflow (runs evs p) = "hidden" ↔ panel_active (runs evs p) = true).
Proof.
  intros Hclosed.
  assert (Hsync0 : in_sync p).
  { right. split; [|assumption]. destruct Hclosed as [Hall _].
    unfold tracked in Hall. inversion Hall as [|? ? _ Hall1]; subst.
    inversion Hall1 as [|? ? H2 _]; subst.
    unfold panel_active. unfold active_of, class_of in H2.
    destruct (mobileSidebar p) as [e|]; [|reflexivity]. simpl in H2.
    destruct (classList_contains "active" e); congruence. }
  clear Hclosed.
  assert (Hsync : in_sync (runs evs p)).
  { revert p Hsync0. induction evs as [|ev evs IH]; intros p Hp; [exact Hp|].
    simpl. apply IH. by apply handle_in_sync. }
  split; [exact Hsync|].
  destruct Hsync as [[Ha [_ Hb]] | [Ha [_ Hb]]]; rewrite Ha, Hb; split; congruence.
Qed.

Lemma scroll_lock_follows_panel_witness :
  body_overflow (runs [ToggleClick; Resize 500; LinkClick 0; ToggleClick; OverlayClick;
                       ToggleClick] (closed_page 600)) = "hidden"
  ↔ panel_active (runs [ToggleClick; Resize 500; LinkClick 0; ToggleClick; OverlayClick;
                        ToggleClick] (closed_page 600)) = true.
Proof.
  apply (scroll_lock_follows_panel
           [ToggleClick; Resize 500; LinkClick 0; ToggleClick; OverlayClick; ToggleClick]
           (closed_page 600)).
  split; [|reflexivity]. repeat constructor; vm_compute; discriminate.
Defined.

(** *** What the sidebar code leaves alone *)

Lemma close_withWidth w p : closeSidebar (withWidth w p) = withWidth w (closeSidebar p).
Proof. reflexivity. Qed.

Lemma withWidth_withWidth w w' p : withWidth w (withWidth w' p) = withWidth w p.
Proof. reflexivity. Qed.

Lemma withWidth_same p : withWidth (innerWidth p) p = p.
Proof. by destruct p. Qed.

Lemma handle_closed ev p :
  closeSidebar (handle ev p) = withWidth (innerWidth (handle ev p)) (closeSidebar p).
Proof.
  destruct ev as [| | |i|w]; simpl.
  - unfold onToggleClick.
    destruct (mobileMenuToggle p); [|by rewrite <- close_withWidth, withWidth_same].
    destruct (mobileSidebar p) as [panel|];
      [|by rewrite <- close_withWidth, withWidth_same].
    destruct (classList_contains "active" panel).
    + by rewrite close_close.
    + by rewrite close_open.
  - unfold onCloseClick.
    destruct (sidebarClose p); [by rewrite close_close|].
    by rewrite <- close_withWidth, withWidth_same.
  - unfold onOverlayClick.
    destruct (sidebarOverlay p); [by rewrite close_close|].
    by rewrite <- close_withWidth, withWidth_same.
  - unfold onLinkClick.
    destruct (sidebarLinks p !! i); [by rewrite close_close|].
    by rewrite <- close_withWidth, withWidth_same.
  - unfold onResize. destruct (_ && _); [by rewrite close_close|]. reflexivity.
Qed.

Lemma runs_closed evs p :
  closeSidebar (runs evs p) = withWidth (innerWidth (runs evs p)) (closeSidebar p).
Proof.
  revert p. induction evs as [|ev evs IH]; intros p; simpl.
  - by rewrite <- close_withWidth, withWidth_same.
  - rewrite IH, handle_closed. reflexivity.
Qed.

(** An element as the sidebar code may leave it: there or not as before,
    with every class but [active] as before, and its other attributes
    and its [disabled] and [hidden] properties unchanged. *)
Definition kept_but_active (o o' : option Element) : Prop :=
  match o, o' with
  | Some e, Some e' =>
      (∀ c, c ≠ "active" → classList_contains c e' = classList_contains c e)
      ∧ attributes e' = attributes e ∧ disabled e' = disabled e ∧ hidden e' = hidden e
  | None, None => True
  | _, _ => False
  end.

Lemma deactivate_kept o o' : deactivate o' = deactivate o → kept_but_active o o'.
Proof.
  destruct o as [e|], o' as [e'|]; simpl; try done. intros H0.
  assert (H : classList_remove "active" e' = classList_remove "active" e)
    by congruence.
  clear H0. split; [|split; [|split]].
  - intros c Hc.
    rewrite <- (contains_remove_ne "active" c e'), <- (contains_remove_ne "active" c e)
      by done.
    by rewrite H.
  - exact (f_equal attributes H).
  - exact (f_equal disabled H).
  - exact (f_equal hidden H).
Qed.

Lemma handle_overflow ev p :
  body_overflow (handle ev p) = body_overflow p
  ∨ body_overflow (handle ev p) = "hidden" ∨ body_overflow (handle ev p) = "".
Proof.
  destruct (handle_shape ev p) as [H | [(q & -> & _) | [q ->]]].
  - left. unfold sidebar_state in H. by injection H.
  - right; by left.
  - right; by right.
Qed.

(** The listeners change nothing on the page but the class [active] of the
    three tracked elements and the body overflow: after any sequence of
    events each tracked element is there or not as before, carries every
    other class exactly when it did before, and has its other attributes
    and its [disabled] and [hidden] properties unchanged; the close button
    and the links are as they were; and the body overflow is what it was
    at the start, [hidden] or empty. *)
Theorem sidebar_changes_only_its_state (evs : list Event) (p : Page) :
  Forall2 kept_but_active (tracked p) (tracked (runs evs p))
  ∧ sidebarClose (runs evs p) = sidebarClose p
  ∧ sidebarLinks (runs evs p) = sidebarLinks p
  ∧ (body_overflow (runs evs p) = body_overflow p
     ∨ body_overflow (runs evs p) = "hidden" ∨ body_overflow (runs evs p) = "").
Proof.
  pose proof (runs_closed evs p) as H.
  split; [|split; [|split]].
  - unfold tracked. repeat constructor; apply deactivate_kept.
    + exact (f_equal mobileMenuToggle H).
    + exact (f_equal mobileSidebar H).
    + exact (f_equal sidebarOverlay H).
  - exact (f_equal sidebarClose H).
  - exact (f_equal sidebarLinks H).
  - clear H. revert p. induction evs as [|ev evs IH]; intros p; simpl; [by left|].
    destruct (IH (handle ev p)) as [-> | [-> | ->]]; [|by right; left | by right; right].
    apply handle_overflow.
Qed.

(** *** The breakpoints *)

(** No width is both mobile and tablet, the two together are the widths up
    to 1024, and the resize listener closes an open sidebar at exactly the
    widths [isMobileDevice] rejects. *)
Theorem resize_closes_beyond_mobile (w : Z) (p : Page) :
  isMobileDevice p && isTabletDevice p = false
  ∧ isMobileDevice p || isTabletDevice p = (innerWidth p <=? 1024)
  ∧ handle (Resize w) p
    = if negb (isMobileDevice (withWidth w p)) && panel_active p
      then closeSidebar (withWidth w p) else withWidth w p.
Proof.
  unfold isMobileDevice, isTabletDevice. simpl. unfold onResize. simpl.
  replace (panel_active (withWidth w p)) with (panel_active p) by reflexivity.
  split; [|split].
  - destruct (innerWidth p <=? 768) eqn:E1, (innerWidth p <=? 1024) eqn:E2,
      (768 <? innerWidth p) eqn:E3; try reflexivity.
    apply Z.leb_le in E1. apply Z.ltb_lt in E3. lia.
  - destruct (innerWidth p <=? 768) eqn:E1, (innerWidth p <=? 1024) eqn:E2,
      (768 <? innerWidth p) eqn:E3; try reflexivity.
    + apply Z.leb_le in E1. apply Z.leb_gt in E2. lia.
    + apply Z.leb_le in E1. apply Z.leb_gt in E2. lia.
    + apply Z.leb_gt in E1. apply Z.ltb_ge in E3. lia.
  - replace (768 <? w) with (negb (w <=? 768)); [reflexivity|].
    destruct (w <=? 768) eqn:E1, (768 <? w) eqn:E3; try reflexivity.
    + apply Z.leb_le in E1. apply Z.ltb_lt in E3. lia.
    + apply Z.leb_gt in E1. apply Z.ltb_ge in E3. lia.
Qed.

End SidebarLaws.

(** ** More on the wizard: validation, submission and the display *)

Module WizardLaws.
Import Dom Wizard.

(** *** [validateStep] stops at the first invalid control *)

Lemma validateControls_first i cs :
  (all_valid cs ∧ validateControls i cs = (true, []))
  ∨ (∃ j c, cs !! j = Some c ∧ reportValidity c = Some false
            ∧ all_valid (take j cs)
            ∧ validateControls i cs = (false, [ReportInvalid (i + j)])).
Proof.
  revert i. induction cs as [|c cs IH]; intros i.
  - left. split; [constructor | reflexivity].
  - simpl. destruct (reportValidity c) as [[]|] eqn:Hc.
    + destruct (IH (S i)) as [[Hv ->] | (j & c' & Hj & Hc' & Hv & ->)].
      * left. split; [constructor; [congruence | assumption] | reflexivity].
      * right. exists (S j), c'. split; [exact Hj|]. split; [exact Hc'|].
        split; [constructor; [congruence | assumption]|].
        do 3 f_equal. lia.
    + right. exists 0%nat, c. split; [reflexivity|]. split; [exact Hc|].
      split; [constructor|]. do 3 f_equal. lia.
    + destruct (IH (S i)) as [[Hv ->] | (j & c' & Hj & Hc' & Hv & ->)].
      * left. split; [constructor; [congruence | assumption] | reflexivity].
      * right. exists (S j), c'. split; [exact Hj|]. split; [exact Hc'|].
        split; [constructor; [congruence | assumption]|].
        do 3 f_equal. lia.
Qed.

(** [validateStep] answers [true], showing nothing, when no control of the
    step reports invalid.  Otherwise it answers [false] and exactly one
    message has been shown, that of the first control that reports
    invalid: the controls before it passed, those after it were not
    asked. *)
Theorem validateStep_stops_at_first_invalid (st : Step) :
  (all_valid (controls st) ∧ validateStep (Some st) = (true, []))
  ∨ (∃ j c, controls st !! j = Some c ∧ reportValidity c = Some false
            ∧ all_valid (take j (controls st))
            ∧ validateStep (Some st) = (false, [ReportInvalid j])).
Proof. apply (validateControls_first 0). Qed.

(** *** Submitting and going back *)

(** A submission on the last step is let through untouched: the listener
    neither cancels it nor validates nor changes the form.  On any other
    step it is cancelled and handled exactly like a click on next. *)
Theorem submit_passes_only_on_last_step (s : State) :
  (activeIndex s = stepCount s - 1 → step Submit s = (s, []))
  ∧ (activeIndex s ≠ stepCount s - 1 →
       step Submit s = step next s
       ∧ head (step Submit s).2 = Some PreventDefault).
Proof.
  simpl. unfold onSubmit. split.
  - intros ->. by rewrite Z.eqb_refl.
  - intros Hne. rewrite (proj2 (Z.eqb_neq _ _) Hne).
    destruct (advance s) as [s' fx]. by split.
Qed.

Lemma submit_passes_only_on_last_step_witness :
  step Submit demo_start.1 = step next demo_start.1
  ∧ step Submit (run [next; Input 1 []; next] demo_start.1).1
    = ((run [next; Input 1 []; next] demo_start.1).1, []).
Proof.
  split.
  - apply (submit_passes_only_on_last_step demo_start.1). vm_compute. discriminate.
  - apply (submit_passes_only_on_last_step (run [next; Input 1 []; next] demo_start.1).1).
    vm_compute. reflexivity.
Defined.

(** Going back is never held up: from any step but the first, a click on
    prev moves to the step before, whatever the controls of the current
    step report, and no validation message is shown. *)
Theorem prev_ignores_validation (s : State) :
  0 < activeIndex s < stepCount s →
  activeIndex (step prev s).1 = activeIndex s - 1
  ∧ (step prev s).2 = [PreventDefault; WindowDispatch (stepchange (step prev s).1)]
  ∧ (controls <$> steps (form (step prev s).1)) = (controls <$> steps (form s)).
Proof.
  intros Hk. simpl. unfold setStep.
  replace (activeIndex s - 1 <? 0) with false by (symmetry; apply Z.ltb_ge; lia).
  replace (Z.of_nat (length (steps (form s))) <=? activeIndex s - 1) with false
    by (symmetry; apply Z.leb_gt; unfold stepCount in Hk; lia).
  cbn [orb fst snd activeIndex form steps]. split; [reflexivity|]. split; [reflexivity|].
  apply list_eq. intros i. rewrite !list_lookup_fmap, list_lookup_imap.
  by destruct (steps (form s) !! i).
Qed.

Lemma prev_ignores_validation_witness :
  activeIndex (step prev (step next demo_start.1).1).1 = 0.
Proof.
  destruct (prev_ignores_validation (step next demo_start.1).1) as [Hback _].
  { vm_compute. split; reflexivity. }
  rewrite Hback. vm_compute. reflexivity.
Defined.

(** *** The page always shows the active step *)

(** The form shows step [k]: the panel at [k], and no other, is active and
    not hidden from assistive technology; the indicator at [k] is active
    and those before it complete; the previous button is disabled on the
    first step only, the next button hidden on the last step only, the
    submit button hidden on every other step. *)
Definition displays (k : Z) (f : Form) : Prop :=
  (∀ i st, steps f !! i = Some st →
     classList_contains "is-active" (panel st) = (Z.of_nat i =? k)
     ∧ attributes (panel st) !! "aria-hidden"
       = Some (if Z.of_nat i =? k then "false" else "true"))
  ∧ (∀ i ind, progressSteps f !! i = Some ind →
       classList_contains "is-active" ind = (Z.of_nat i =? k)
       ∧ classList_contains "is-complete" ind = (Z.of_nat i <? k))
  ∧ (∀ b, prevBtn f = Some b → disabled b = (k =? 0))
  ∧ (∀ b, nextBtn f = Some b → hidden b = (k =? Z.of_nat (length (steps f)) - 1))
  ∧ (∀ b, submitBtn f = Some b → hidden b = negb (k =? Z.of_nat (length (steps f)) - 1)).

Lemma setStep_state k s :
  0 ≤ k < stepCount s →
  (setStep k s).1 =
  {| form :=
       {| id := id (form s);
          named_id := named_id (form s);
          form_el := form_el (form s);
          steps := imap (showStep k) (steps (form s));
          progressSteps := imap (showProgress k) (progressSteps (form s));
          prevBtn := set_disabled (k =? 0) <$> prevBtn (form s);
          nextBtn := set_hidden (k =? stepCount s - 1) <$> nextBtn (form s);
          submitBtn := set_hidden (negb (k =? stepCount s - 1)) <$> submitBtn (form s) |};
     activeIndex := k |}.
Proof.
  intros [Hk0 Hk1]. unfold setStep, stepCount in *.
  by rewrite (proj2 (Z.ltb_ge k 0) Hk0), (proj2 (Z.leb_gt _ k) Hk1).
Qed.

Lemma setStep_displays k s :
  0 ≤ k < stepCount s → displays k (form (setStep k s).1).
Proof.
  intros Hk. rewrite (setStep_state k s Hk). unfold displays, stepCount.
  cbn [form steps progressSteps prevBtn nextBtn submitBtn].
  rewrite length_imap. split; [|split; [|split; [|split]]].
  - intros i st. rewrite list_lookup_imap.
    destruct (steps (form s) !! i) as [st0|]; [|discriminate]. intros [= <-].
    unfold showStep. cbn [panel].
    rewrite contains_setAttribute, contains_toggle, attribute_setAttribute.
    split; [reflexivity|]. by destruct (Z.of_nat i =? k).
  - intros i ind. rewrite list_lookup_imap.
    destruct (progressSteps (form s) !! i) as [ind0|]; [|discriminate]. intros [= <-].
    unfold showProgress. rewrite contains_toggle_ne by done.
    by rewrite !contains_toggle.
  - intros b. destruct (prevBtn (form s)); [|discriminate]. by intros [= <-].
  - intros b. destruct (nextBtn (form s)); [|discriminate]. by intros [= <-].
  - intros b. destruct (submitBtn (form s)); [|discriminate]. by intros [= <-].
Qed.

Lemma setControls_displays k i cs s :
  displays k (form s) → displays k (form (setControls i cs s)).
Proof.
  intros (Hsteps & Hrest). unfold displays. cbn [setControls form steps progressSteps
    prevBtn nextBtn submitBtn]. rewrite length_alter. split; [|exact Hrest].
  intros j st. destruct (decide (i = j)) as [->|Hne].
  - rewrite list_lookup_alter_eq.
    destruct (steps (form s) !! j) as [st0|] eqn:Hj; [|discriminate].
    intros [= <-]. exact (Hsteps j st0 Hj).
  - rewrite list_lookup_alter_ne by done. apply Hsteps.
Qed.

(** What a listener does to the state: nothing, an edit of the controls,
    or one accepted [setStep]. *)
Lemma step_shape a s :
  (step a s).1 = s
  ∨ (∃ i cs, (step a s).1 = setControls i cs s)
  ∨ (∃ k, 0 ≤ k < stepCount s ∧ (step a s).1 = (setStep k s).1).
Proof.
  assert (Hset : ∀ k, (setStep k s).1 = s
                      ∨ (∃ k, 0 ≤ k < stepCount s ∧ (setStep k s).1 = (setStep k s).1)).
  { intros k. destruct (decide (0 ≤ k < stepCount s)) as [Hk|Hk]; [right; eauto|].
    left. rewrite setStep_rejected; [reflexivity | lia]. }
  assert (Hadv : (advance s).1 = s
                 ∨ (∃ k, 0 ≤ k < stepCount s ∧ (advance s).1 = (setStep k s).1)).
  { unfold advance. destruct (validateStep _) as [[] shown]; [|by left].
    destruct (decide (0 ≤ activeIndex s + 1 < stepCount s)) as [Hk|Hk].
    - right. exists (activeIndex s + 1). split; [exact Hk|].
      by destruct (setStep (activeIndex s + 1) s).
    - left. rewrite setStep_rejected; [reflexivity | lia]. }
  destruct a as [[action|]| |i cs]; simpl.
  - destruct (decide (action = "next")).
    { destruct Hadv as [H | H]; destruct (advance s); [left | right; right]; exact H. }
    destruct (decide (action = "prev")); [|by left].
    destruct (decide (0 ≤ activeIndex s - 1 < stepCount s)) as [Hk|Hk].
    + right; right. exists (activeIndex s - 1). split; [exact Hk|].
      by destruct (setStep (activeIndex s - 1) s).
    + left. rewrite setStep_rejected; [reflexivity | lia].
  - by left.
  - unfold onSubmit. destruct (_ =? _); [by left|].
    destruct Hadv as [H | H]; destruct (advance s); [left | right; right]; exact H.
  - right; left. eauto.
Qed.

Lemma step_displays a s :
  displays (activeIndex s) (form s) →
  displays (activeIndex (step a s).1) (form (step a s).1).
Proof.
  intros Hs. destruct (step_shape a s) as [-> | [(i & cs & ->) | (k & Hk & ->)]].
  - exact Hs.
  - by apply setControls_displays.
  - rewrite (setStep_state k s Hk) at 1. cbn [activeIndex]. by apply setStep_displays.
Qed.

Lemma run_displays acts s :
  displays (activeIndex s) (form s) →
  displays (activeIndex (run acts s).1) (form (run acts s).1).
Proof.
  revert s. induction acts as [|a acts IH]; intros s Hs; [exact Hs|].
  simpl. pose proof (step_displays a s Hs) as H1.
  destruct (step a s) as [s1 fx1]. pose proof (IH s1 H1) as H2.
  by destruct (run acts s1).
Qed.

(** From the page load on, whatever is clicked, submitted or typed, the
    form shows the step its index says: exactly the panel at the active
    index is active and exposed, the progress indicators up to it are
    marked, and the buttons fit the position (no way back on the first
    step, submit instead of next on the last). *)
Theorem page_always_shows_active_step
    (f : Form) (s0 : State) (fx0 : list Effect) (acts : list Action) :
  initForm f = Some (s0, fx0) →
  displays (activeIndex (run acts s0).1) (form (run acts s0).1)
  ∧ classList_contains "multi-step-enabled" (form_el (form s0)) = true.
Proof.
  intros Hinit. unfold initForm in Hinit.
  destruct (_ <=? _)%nat eqn:E; [discriminate|]. apply Nat.leb_gt in E.
  injection Hinit as Hinit.
  match type of Hinit with setStep 0 ?s = _ =>
    assert (Hk : 0 ≤ 0 < stepCount s) by (unfold stepCount; simpl; lia);
    pose proof (setStep_displays 0 s Hk) as Hd;
    pose proof (setStep_state 0 s Hk) as Hst end.
  rewrite Hinit in Hd, Hst. cbn [fst] in Hd, Hst. split.
  - apply run_displays. rewrite Hst at 1. exact Hd.
  - rewrite Hst. cbn [form form_el]. apply contains_add.
Qed.

Lemma page_always_shows_active_step_witness :
  displays 2 (form (run [next; Input 1 []; next; Submit; prev; next] demo_start.1).1).
Proof.
  destruct (page_always_shows_active_step demo_form demo_start.1 demo_start.2
              [next; Input 1 []; next; Submit; prev; next]) as [Hshown _].
  { reflexivity. }
  exact Hshown.
Defined.

(** *** The display depends on the step shown, not on the way there *)















End WizardLaws.

(** ** Password toggles and the login and signup placeholders
    ([main.js], lines 59-156) *)

Module Auth.
Import Js.

(** *** The password toggle *)

(** What the click listener of a [.password-toggle] reaches: the [type] of
    the first [input] inside the parent of the button, and the text of the
    [.password-toggle-text] inside the button; [None] for a node that
    [querySelector] does not find. *)
Record ToggleWidget := mkToggle {
  field_type : option string;
  toggle_text : option string
}.

(** The listener.  Reading [type] of a missing input throws before
    anything is changed; writing [textContent] of a missing label throws
    after the type has been changed. *)
Definition onPasswordToggle (w : ToggleWidget) : ToggleWidget * Outcome unit :=
  match field_type w with
  | None => (w, Thrown TypeError)
  | Some ty =>
      let shown := bool_decide (ty = "password") in
      let w' := {| field_type := Some (if shown then "text" else "password");
                   toggle_text := toggle_text w |} in
      match toggle_text w with
      | None => (w', Thrown TypeError)
      | Some _ =>
          ({| field_type := field_type w';
              toggle_text := Some (if shown then "Hide" else "Show") |}, Normal ())
      end
  end.

Fixpoint clicks (n : nat) (w : ToggleWidget) : ToggleWidget :=
  match n with
  | O => w
  | S n' => clicks n' (onPasswordToggle w).1
  end.

(** *** The login and signup forms *)

Inductive LogEntry :=
| Text (key : string) (v : jsstring)
| Flag (key : string) (b : bool).

Inductive Effect :=
| PreventDefault
| Alert (msg : string)
| ConsoleLog (tag : string) (entries : list LogEntry)
| Navigate (href : string).

(** A statement of a listener: it extends the trace and returns or
    throws. *)
Definition M (A : Type) : Type := list Effect → Outcome A * list Effect.

#[global] Instance M_ret : MRet M := λ A a tr, (Normal a, tr).
#[global] Instance M_bind : MBind M := λ A B f m tr,
  match m tr with
  | (Normal a, tr') => f a tr'
  | (Thrown e, tr') => (Thrown e, tr')
  end.

Definition emit (e : Effect) : M unit := λ tr, (Normal (), tr ++ [e]).

(** [document.getElementById(id).value] (or [.checked]): a [TypeError] when
    the page has no such element. *)
Definition read {A} (o : option A) : M A :=
  λ tr, match o with Some a => (Normal a, tr) | None => (Thrown TypeError, tr) end.

(** [!s] for a string *)
Definition blank (s : jsstring) : bool := match s with [] => true | _ :: _ => false end.

(** The fields of the login page, each [None] when the element is
    missing. *)
Record LoginPage := mkLogin {
  login_email : option jsstring;
  login_password : option jsstring;
  remember : option bool
}.

Definition onLoginSubmit (p : LoginPage) : M unit :=
  emit PreventDefault;;
  email ← read (login_email p);
  password ← read (login_password p);
  rem ← read (remember p);
  if blank email || blank password then
    emit (Alert "Please fill in all required fields.")
  else
    emit (ConsoleLog "Login attempt:"
            [Text "email" email; Text "password" password; Flag "remember" rem]);;
    emit (Alert "Login functionality would be implemented here. Redirecting to home page...");;
    emit (Navigate "index.html").

Record SignupPage := mkSignup {
  firstName : option jsstring;
  lastName : option jsstring;
  email : option jsstring;
  phone : option jsstring;
  password : option jsstring;
  confirmPassword : option jsstring;
  terms : option bool;
  newsletter : option bool
}.

Definition onSignupSubmit (p : SignupPage) : M unit :=
  emit PreventDefault;;
  fn ← read (firstName p);
  ln ← read (lastName p);
  em ← read (email p);
  ph ← read (phone p);
  pw ← read (password p);
  cpw ← read (confirmPassword p);
  termsAccepted ← read (terms p);
  nl ← read (newsletter p);
  if blank fn || blank ln || blank em || blank pw || blank cpw then
    emit (Alert "Please fill in all required fields.")
  else if negb (str_eqb pw cpw) then
    emit (Alert "Passwords do not match.")
  else if (length pw <? 8)%nat then
    emit (Alert "Password must be at least 8 characters long.")
  else if negb termsAccepted then
    emit (Alert "Please accept the Terms of Service and Privacy Policy.")
  else
    emit (ConsoleLog "Signup attempt:"
            [Text "firstName" fn; Text "lastName" ln; Text "email" em;
             Text "phone" ph; Text "password" pw; Flag "newsletter" nl]);;
    emit (Alert "Account created successfully! Redirecting to login page...");;
    emit (Navigate "login.html").

(** The alerts and the navigations of a trace. *)
Definition alerts (tr : list Effect) : list string :=
  omap (λ e, match e with Alert m => Some m | _ => None end) tr.

Definition navigations (tr : list Effect) : list string :=
  omap (λ e, match e with Navigate h => Some h | _ => None end) tr.

(** The texts a trace wrote to the console. *)
Definition logged (tr : list Effect) : list jsstring :=
  omap (λ e, match e with Text _ v => Some v | _ => None end)
    (mjoin (omap (λ e, match e with ConsoleLog _ es => Some es | _ => None end) tr)).

(** Example pages. *)
Definition visitor : LoginPage :=
  {| login_email := Some (lit "a@b.c"); login_password := Some (lit "x");
     remember := Some false |}.

Definition newcomer : SignupPage :=
  {| firstName := Some (lit "Asha"); lastName := Some (lit "Naik");
     email := Some (lit "asha@example.org"); phone := Some [];
     password := Some (lit "12345678"); confirmPassword := Some (lit "12345678");
     terms := Some true; newsletter := Some false |}.

(** *** The password toggle *)

(** The field is readable and the label says so, or it is masked and the
    label offers to show it. *)
Definition label_fits (w : ToggleWidget) : Prop :=
  (field_type w = Some "text" ∧ toggle_text w = Some "Hide")
  ∨ (field_type w = Some "password" ∧ toggle_text w = Some "Show").

Lemma toggle_once w ty l :
  field_type w = Some ty → toggle_text w = Some l →
  onPasswordToggle w
  = ({| field_type := Some (if bool_decide (ty = "password") then "text" else "password");
        toggle_text := Some (if bool_decide (ty = "password") then "Hide" else "Show") |},
     Normal ()).
Proof. intros Hf Hl. unfold onPasswordToggle. by rewrite Hf, Hl. Qed.

Lemma toggle_fits w : label_fits w → label_fits (onPasswordToggle w).1
                                     ∧ (onPasswordToggle (onPasswordToggle w).1).1 = w.
Proof.
  intros [[Hf Hl] | [Hf Hl]]; rewrite (toggle_once w _ _ Hf Hl); cbn [fst].
  - split; [by right|]. destruct w; simpl in *; subst. reflexivity.
  - split; [by left|]. destruct w; simpl in *; subst. reflexivity.
Qed.

(** With the input and the label in place, one click leaves the field
    either readable with the label [Hide] or masked with the label [Show],
    whatever the two were before (an input of another type becomes a
    password field), and from then on every click switches between these
    two states: the label always tells what the next click will do, and
    two clicks change nothing. *)
Theorem password_toggle_alternates (w : ToggleWidget) (ty l : string) (n : nat) :
  field_type w = Some ty → toggle_text w = Some l →
  (onPasswordToggle w).2 = Normal ()
  ∧ (field_type (onPasswordToggle w).1 = Some "text" ↔ ty = "password")
  ∧ label_fits (clicks (S n) w)
  ∧ clicks (S n + 2) w = clicks (S n) w.
Proof.
  intros Hf Hl. rewrite (toggle_once w ty l Hf Hl). split; [reflexivity|].
  split.
  { cbn [fst field_type]. case_bool_decide; split; congruence. }
  assert (H1 : label_fits (clicks 1 w)).
  { cbn [clicks]. rewrite (toggle_once w ty l Hf Hl). cbn [fst].
    case_bool_decide; [by left | by right]. }
  assert (Hn : ∀ k v, label_fits v → label_fits (clicks k v) ∧ clicks (k + 2) v = clicks k v).
  { induction k as [|k IH]; intros v Hv.
    - split; [exact Hv|]. cbn [clicks Nat.add]. by apply toggle_fits.
    - cbn [clicks Nat.add]. apply IH. by apply toggle_fits. }
  change (clicks (S n) w) with (clicks n (clicks 1 w)).
  change (clicks (S n + 2) w) with (clicks (n + 2) (clicks 1 w)).
  by apply Hn.
Qed.

Lemma password_toggle_alternates_witness :
  label_fits (clicks 3 (mkToggle (Some "email") (Some "Show password")))
  ∧ clicks 5 (mkToggle (Some "email") (Some "Show password"))
    = clicks 3 (mkToggle (Some "email") (Some "Show password")).
Proof.
  destruct (password_toggle_alternates
              (mkToggle (Some "email") (Some "Show password")) "email" "Show password" 2
              eq_refl eq_refl) as (_ & _ & Hfits & Hperiod).
  split; [exact Hfits | exact Hperiod].
Defined.

(** A toggle without an input fails before it changes anything.  A toggle
    whose label element is missing fails too, but only after it has
    switched the field: the password is shown (or masked) although the
    listener threw. *)
Theorem password_toggle_failures (w : ToggleWidget) :
  (field_type w = None → onPasswordToggle w = (w, Thrown TypeError))
  ∧ (∀ ty, field_type w = Some ty → toggle_text w = None →
       (onPasswordToggle w).2 = Thrown TypeError
       ∧ field_type (onPasswordToggle w).1
         = Some (if bool_decide (ty = "password") then "text" else "password")).
Proof.
  split.
  - intros Hf. unfold onPasswordToggle. by rewrite Hf.
  - intros ty Hf Hl. unfold onPasswordToggle. by rewrite Hf, Hl.
Qed.

Lemma password_toggle_failures_witness :
  onPasswordToggle (mkToggle None (Some "Show")) = (mkToggle None (Some "Show"), Thrown TypeError)
  ∧ onPasswordToggle (mkToggle (Some "password") None)
    = (mkToggle (Some "text") None, Thrown TypeError).
Proof.
  split.
  - apply (password_toggle_failures (mkToggle None (Some "Show"))). reflexivity.
  - destruct (password_toggle_failures (mkToggle (Some "password") None)) as [_ H].
    destruct (H "password" eq_refl eq_refl) as [H1 H2].
    destruct (onPasswordToggle (mkToggle (Some "password") None)) as [[f t] o] eqn:E.
    cbn [fst snd field_type] in *. subst.
    unfold onPasswordToggle in E. cbn in E. by injection E as <-.
Defined.

(** *** The login form *)

Lemma blank_spec s : blank s = true ↔ s = [].
Proof. destruct s; split; (reflexivity || discriminate). Qed.

Lemma login_eq p e pw r :
  login_email p = Some e → login_password p = Some pw → remember p = Some r →
  onLoginSubmit p [] =
  (Normal (),
   PreventDefault ::
   if blank e || blank pw then [Alert "Please fill in all required fields."]
   else [ConsoleLog "Login attempt:" [Text "email" e; Text "password" pw; Flag "remember" r];
         Alert "Login functionality would be implemented here. Redirecting to home page...";
         Navigate "index.html"]).
Proof.
  intros He Hp Hr. unfold onLoginSubmit, mbind, M_bind, emit, read.
  rewrite He, Hp, Hr. cbn [app]. by destruct (blank e || blank pw).
Qed.

(** The login listener always cancels the submission first, so the form is
    never posted.  With the three elements in place it shows exactly one
    alert, and it goes to [index.html] exactly when the email and the
    password are both non-empty: nothing else is checked, and the remember
    box plays no part.  On that path the password is written to the console
    as typed.  With an element missing it throws right after cancelling,
    without alert or navigation. *)
Theorem login_needs_email_and_password (p : LoginPage) :
  head (onLoginSubmit p []).2 = Some PreventDefault
  ∧ (∀ e pw r,
       login_email p = Some e → login_password p = Some pw → remember p = Some r →
       (onLoginSubmit p []).1 = Normal ()
       ∧ length (alerts (onLoginSubmit p []).2) = 1%nat
       ∧ (navigations (onLoginSubmit p []).2 = ["index.html"] ↔ e ≠ [] ∧ pw ≠ [])
       ∧ (navigations (onLoginSubmit p []).2 = [] ↔ e = [] ∨ pw = [])
       ∧ (e ≠ [] ∧ pw ≠ [] → logged (onLoginSubmit p []).2 = [e; pw]))
  ∧ (login_email p = None ∨ login_password p = None ∨ remember p = None →
       onLoginSubmit p [] = (Thrown TypeError, [PreventDefault])).
Proof.
  split; [|split].
  - unfold onLoginSubmit, mbind, M_bind, emit, read. cbn [app].
    destruct (login_email p) as [e|]; [|reflexivity].
    destruct (login_password p) as [pw|]; [|reflexivity].
    destruct (remember p) as [r|]; [|reflexivity].
    by destruct (blank e || blank pw).
  - intros e pw r He Hp Hr. rewrite (login_eq p e pw r He Hp Hr). cbn [fst snd].
    split; [reflexivity|].
    destruct e as [|c e], pw as [|c' pw]; cbn;
      (split; [reflexivity|]); (split; [|split]); try split;
      try (intros [? ?]); try (intros [?|?]); try congruence; try discriminate;
      try (split; discriminate); auto.
  - unfold onLoginSubmit, mbind, M_bind, emit, read. cbn [app].
    intros [H | [H | H]].
    + by rewrite H.
    + rewrite H. by destruct (login_email p).
    + rewrite H. by destruct (login_email p), (login_password p).
Qed.

Lemma login_needs_email_and_password_witness :
  navigations (onLoginSubmit visitor []).2 = ["index.html"]
  ∧ logged (onLoginSubmit visitor []).2 = [lit "a@b.c"; lit "x"]
  ∧ onLoginSubmit (mkLogin (Some (lit "a@b.c")) (Some (lit "x")) None) []
    = (Thrown TypeError, [PreventDefault]).
Proof.
  destruct (login_needs_email_and_password visitor) as (_ & Hok & _).
  destruct (Hok (lit "a@b.c") (lit "x") false eq_refl eq_refl eq_refl)
    as (_ & _ & Hnav & _ & Hlog).
  split; [|split].
  - apply Hnav. split; discriminate.
  - apply Hlog. split; discriminate.
  - apply (login_needs_email_and_password
             (mkLogin (Some (lit "a@b.c")) (Some (lit "x")) None)).
    right; right. reflexivity.
Defined.

(** *** The signup form *)

Lemma str_eqb_spec a b : str_eqb a b = true ↔ a = b.
Proof.
  revert b. induction a as [|x a IH]; intros [|y b]; simpl;
    try (split; (reflexivity || discriminate)).
  rewrite andb_true_iff, Z.eqb_eq, IH. split; [intros [-> ->]; reflexivity|].
  intros [= -> ->]. by split.
Qed.

(** The message of the first check that fails, if one does. *)
Definition signup_refusal (fn ln em pw cpw : jsstring) (t : bool) : option string :=
  if blank fn || blank ln || blank em || blank pw || blank cpw
  then Some "Please fill in all required fields."
  else if negb (str_eqb pw cpw) then Some "Passwords do not match."
  else if (length pw <? 8)%nat then Some "Password must be at least 8 characters long."
  else if negb t then Some "Please accept the Terms of Service and Privacy Policy."
  else None.

Lemma signup_eq p fn ln em ph pw cpw t nl :
  firstName p = Some fn → lastName p = Some ln → email p = Some em →
  phone p = Some ph → password p = Some pw → confirmPassword p = Some cpw →
  terms p = Some t → newsletter p = Some nl →
  onSignupSubmit p [] =
  (Normal (),
   PreventDefault ::
   match signup_refusal fn ln em pw cpw t with
   | Some msg => [Alert msg]
   | None =>
       [ConsoleLog "Signup attempt:"
          [Text "firstName" fn; Text "lastName" ln; Text "email" em;
           Text "phone" ph; Text "password" pw; Flag "newsletter" nl];
        Alert "Account created successfully! Redirecting to login page...";
        Navigate "login.html"]
   end).
Proof.
  intros H1 H2 H3 H4 H5 H6 H7 H8.
  unfold onSignupSubmit, signup_refusal, mbind, M_bind, emit, read.
  rewrite H1, H2, H3, H4, H5, H6, H7, H8. cbn [app].
  destruct (blank fn || blank ln || blank em || blank pw || blank cpw); [reflexivity|].
  destruct (negb (str_eqb pw cpw)); [reflexivity|].
  destruct (length pw <? 8)%nat; [reflexivity|].
  by destruct (negb t).
Qed.

Lemma signup_refusal_None fn ln em pw cpw t :
  signup_refusal fn ln em pw cpw t = None
  ↔ fn ≠ [] ∧ ln ≠ [] ∧ em ≠ [] ∧ pw = cpw ∧ (8 ≤ length pw)%nat ∧ t = true.
Proof.
  unfold signup_refusal. split.
  - destruct (blank fn) eqn:E1; [discriminate|].
    destruct (blank ln) eqn:E2; [discriminate|].
    destruct (blank em) eqn:E3; [discriminate|].
    destruct (blank pw); [discriminate|]. destruct (blank cpw); [discriminate|].
    cbn [orb]. destruct (str_eqb pw cpw) eqn:E4; [|discriminate]. cbn [negb].
    destruct (length pw <? 8)%nat eqn:E5; [discriminate|].
    destruct t; [|discriminate]. intros _.
    apply str_eqb_spec in E4. apply Nat.ltb_ge in E5.
    repeat split; try assumption; intros ->; discriminate.
  - intros (H1 & H2 & H3 & <- & H5 & ->).
    destruct fn; [congruence|]. destruct ln; [congruence|]. destruct em; [congruence|].
    destruct pw as [|c pw]; [simpl in H5; lia|]. cbn [blank orb].
    rewrite (proj2 (str_eqb_spec _ _) eq_refl). cbn [negb].
    by rewrite (proj2 (Nat.ltb_ge _ _) H5).
Qed.

(** The signup listener always cancels the submission first.  With all
    eight elements in place it shows exactly one alert, and it goes to
    [login.html] exactly when first name, last name and email are
    non-empty, the two passwords are equal and at least eight code units
    long, and the terms box is ticked; otherwise it stays on the page.
    Phone and newsletter never change the alert or the navigation.  On
    success the password is written to the console as typed. *)
Theorem signup_accepts_exactly
    (p : SignupPage) (fn ln em ph pw cpw : jsstring) (t nl : bool) :
  firstName p = Some fn → lastName p = Some ln → email p = Some em →
  phone p = Some ph → password p = Some pw → confirmPassword p = Some cpw →
  terms p = Some t → newsletter p = Some nl →
  (onSignupSubmit p []).1 = Normal ()
  ∧ head (onSignupSubmit p []).2 = Some PreventDefault
  ∧ length (alerts (onSignupSubmit p []).2) = 1%nat
  ∧ (navigations (onSignupSubmit p []).2 = ["login.html"]
     ↔ fn ≠ [] ∧ ln ≠ [] ∧ em ≠ [] ∧ pw = cpw ∧ (8 ≤ length pw)%nat ∧ t = true)
  ∧ (navigations (onSignupSubmit p []).2 = ["login.html"]
     ∨ navigations (onSignupSubmit p []).2 = [])
  ∧ (navigations (onSignupSubmit p []).2 = ["login.html"] →
       logged (onSignupSubmit p []).2 = [fn; ln; em; ph; pw])
  ∧ (∀ ph' nl',
       alerts (onSignupSubmit (mkSignup (Some fn) (Some ln) (Some em) (Some ph')
                                 (Some pw) (Some cpw) (Some t) (Some nl')) []).2
       = alerts (onSignupSubmit p []).2
       ∧ navigations (onSignupSubmit (mkSignup (Some fn) (Some ln) (Some em) (Some ph')
                                        (Some pw) (Some cpw) (Some t) (Some nl')) []).2
         = navigations (onSignupSubmit p []).2).
Proof.
  intros H1 H2 H3 H4 H5 H6 H7 H8.
  rewrite (signup_eq p fn ln em ph pw cpw t nl H1 H2 H3 H4 H5 H6 H7 H8).
  cbn [fst snd]. split; [reflexivity|]. split; [reflexivity|].
  pose proof (signup_refusal_None fn ln em pw cpw t) as Hiff.
  assert (Hother : ∀ ph' nl',
    onSignupSubmit (mkSignup (Some fn) (Some ln) (Some em) (Some ph')
                      (Some pw) (Some cpw) (Some t) (Some nl')) [] =
    (Normal (),
     PreventDefault ::
     match signup_refusal fn ln em pw cpw t with
     | Some msg => [Alert msg]
     | None =>
         [ConsoleLog "Signup attempt:"
            [Text "firstName" fn; Text "lastName" ln; Text "email" em;
             Text "phone" ph'; Text "password" pw; Flag "newsletter" nl'];
          Alert "Account created successfully! Redirecting to login page...";
          Navigate "login.html"]
     end)).
  { intros ph' nl'. by apply signup_eq. }
  destruct (signup_refusal fn ln em pw cpw t) as [msg|].
  - split; [reflexivity|]. split.
    { split; [discriminate|]. intros H. apply Hiff in H. discriminate. }
    split; [by right|]. split; [discriminate|].
    intros ph' nl'. by rewrite Hother.
  - split; [reflexivity|]. split.
    { split; [intros _; by apply Hiff | reflexivity]. }
    split; [by left|]. split; [reflexivity|].
    intros ph' nl'. by rewrite Hother.
Qed.

Lemma signup_accepts_exactly_witness :
  navigations (onSignupSubmit newcomer []).2 = ["login.html"]
  ∧ logged (onSignupSubmit newcomer []).2
    = [lit "Asha"; lit "Naik"; lit "asha@example.org"; []; lit "12345678"].
Proof.
  destruct (signup_accepts_exactly newcomer (lit "Asha") (lit "Naik")
              (lit "asha@example.org") [] (lit "12345678") (lit "12345678") true false
              eq_refl eq_refl eq_refl eq_refl eq_refl eq_refl eq_refl eq_refl)
    as (_ & _ & _ & Hnav & _ & Hlog & _).
  assert (Hgo : navigations (onSignupSubmit newcomer []).2 = ["login.html"]).
  { apply Hnav. repeat split; try discriminate. vm_compute. lia. }
  split; [exact Hgo | exact (Hlog Hgo)].
Defined.

(** When several checks fail at once, the alert is that of the first one
    in the order of the code: missing fields before a mismatch, a mismatch
    before the length, the length before the terms. *)
Theorem signup_reports_first_failure
    (p : SignupPage) (fn ln em ph pw cpw : jsstring) (t nl : bool) :
  firstName p = Some fn → lastName p = Some ln → email p = Some em →
  phone p = Some ph → password p = Some pw → confirmPassword p = Some cpw →
  terms p = Some t → newsletter p = Some nl →
  (fn = [] ∨ ln = [] ∨ em = [] ∨ pw = [] ∨ cpw = [] →
     alerts (onSignupSubmit p []).2 = ["Please fill in all required fields."])
  ∧ (fn ≠ [] → ln ≠ [] → em ≠ [] → pw ≠ [] → cpw ≠ [] → pw ≠ cpw →
       alerts (onSignupSubmit p []).2 = ["Passwords do not match."])
  ∧ (fn ≠ [] → ln ≠ [] → em ≠ [] → pw ≠ [] → pw = cpw → (length pw < 8)%nat →
       alerts (onSignupSubmit p []).2 = ["Password must be at least 8 characters long."])
  ∧ (fn ≠ [] → ln ≠ [] → em ≠ [] → pw = cpw → (8 ≤ length pw)%nat → t = false →
       alerts (onSignupSubmit p []).2
       = ["Please accept the Terms of Service and Privacy Policy."]).
Proof.
  intros H1 H2 H3 H4 H5 H6 H7 H8.
  rewrite (signup_eq p fn ln em ph pw cpw t nl H1 H2 H3 H4 H5 H6 H7 H8).
  cbn [snd]. unfold signup_refusal.
  assert (Hb : ∀ s : jsstring, s ≠ [] → blank s = false)
    by (intros [|? ?] ?; [congruence | reflexivity]).
  split; [|split; [|split]].
  - intros H.
    assert (blank fn || blank ln || blank em || blank pw || blank cpw = true) as ->.
    { destruct H as [-> | [-> | [-> | [-> | ->]]]]; cbn;
        rewrite ?orb_true_r; reflexivity. }
    reflexivity.
  - intros Hf Hl He Hp Hc Hne.
    rewrite (Hb fn Hf), (Hb ln Hl), (Hb em He), (Hb pw Hp), (Hb cpw Hc). cbn [orb].
    destruct (str_eqb pw cpw) eqn:E; [apply str_eqb_spec in E; congruence|].
    reflexivity.
  - intros Hf Hl He Hp <- Hlen.
    rewrite (Hb fn Hf), (Hb ln Hl), (Hb em He), (Hb pw Hp). cbn [orb].
    rewrite (proj2 (str_eqb_spec pw pw) eq_refl). cbn [negb].
    by rewrite (proj2 (Nat.ltb_lt _ _) Hlen).
  - intros Hf Hl He <- Hlen ->.
    assert (Hp : pw ≠ []) by (intros ->; simpl in Hlen; lia).
    rewrite (Hb fn Hf), (Hb ln Hl), (Hb em He), (Hb pw Hp). cbn [orb].
    rewrite (proj2 (str_eqb_spec pw pw) eq_refl). cbn [negb].
    by rewrite (proj2 (Nat.ltb_ge _ _) Hlen).
Qed.

Lemma signup_reports_first_failure_witness :
  alerts (onSignupSubmit
            (mkSignup (Some (lit "Asha")) (Some (lit "Naik")) (Some (lit "a@b.c"))
               (Some []) (Some (lit "short")) (Some (lit "other")) (Some false)
               (Some true)) []).2
  = ["Passwords do not match."].
Proof.
  apply (signup_reports_first_failure
           (mkSignup (Some (lit "Asha")) (Some (lit "Naik")) (Some (lit "a@b.c"))
              (Some []) (Some (lit "short")) (Some (lit "other")) (Some false)
              (Some true))
           (lit "Asha") (lit "Naik") (lit "a@b.c") [] (lit "short") (lit "other")
           false true eq_refl eq_refl eq_refl eq_refl eq_refl eq_refl eq_refl eq_refl);
    discriminate.
Defined.

End Auth.

(** * More about the store map *)

Module StoreMapLaws.
Import Js StoreMap.

(** ** Escaping *)

(** What the four [replace] calls of [escapeAttr] make of one code unit. *)
Definition entity (c : Z) : jsstring :=
  if c =? 38 then lit "&amp;"
  else if c =? 34 then lit "&quot;"
  else if c =? 60 then lit "&lt;"
  else if c =? 62 then lit "&gt;"
  else [c].

Lemma replace_all_app c by_ s t :
  replace_all c by_ (s ++ t) = replace_all c by_ s ++ replace_all c by_ t.
Proof. apply bind_app. Qed.

Lemma replace_all_bind c by_ (f : Z → jsstring) s :
  replace_all c by_ (s ≫= f) = s ≫= (λ x, replace_all c by_ (f x)).
Proof.
  induction s as [|x s IH]; [reflexivity|].
  by rewrite !bind_cons, replace_all_app, IH.
Qed.

Lemma replace_all_one c by_ x :
  replace_all c by_ [x] = if x =? c then by_ else [x].
Proof. unfold replace_all. rewrite bind_singleton. reflexivity. Qed.

Lemma entity_eq x :
  replace_all 62 (lit "&gt;")
    (replace_all 60 (lit "&lt;")
       (replace_all 34 (lit "&quot;") (replace_all 38 (lit "&amp;") [x])))
  = entity x.
Proof.
  unfold entity. rewrite (replace_all_one 38).
  destruct (x =? 38) eqn:E38; [reflexivity|].
  rewrite (replace_all_one 34).
  destruct (x =? 34) eqn:E34; [reflexivity|].
  rewrite (replace_all_one 60).
  destruct (x =? 60) eqn:E60; [reflexivity|].
  rewrite (replace_all_one 62).
  by destruct (x =? 62).
Qed.

Lemma escape_one_pass s :
  replace_all 62 (lit "&gt;")
    (replace_all 60 (lit "&lt;")
       (replace_all 34 (lit "&quot;") (replace_all 38 (lit "&amp;") s)))
  = s ≫= entity.
Proof.
  induction s as [|x s IH]; [reflexivity|].
  change (x :: s) with ([x] ++ s).
  rewrite !replace_all_app, IH, entity_eq. by rewrite bind_app, bind_singleton.
Qed.

(** The cases of [entity]. *)
Lemma entity_cases x :
  (x = 38 ∧ entity x = lit "&amp;") ∨ (x = 34 ∧ entity x = lit "&quot;")
  ∨ (x = 60 ∧ entity x = lit "&lt;") ∨ (x = 62 ∧ entity x = lit "&gt;")
  ∨ (x ≠ 38 ∧ x ≠ 34 ∧ x ≠ 60 ∧ x ≠ 62 ∧ entity x = [x]).
Proof.
  unfold entity.
  destruct (Z.eqb_spec x 38); [by left|].
  destruct (Z.eqb_spec x 34); [by right; left|].
  destruct (Z.eqb_spec x 60); [by right; right; left|].
  destruct (Z.eqb_spec x 62); [by right; right; right; left|].
  by right; right; right; right.
Qed.

Lemma entity_units :
  lit "&amp;" = [38; 97; 109; 112; 59] ∧ lit "&quot;" = [38; 113; 117; 111; 116; 59]
  ∧ lit "&lt;" = [38; 108; 116; 59] ∧ lit "&gt;" = [38; 103; 116; 59].
Proof. by repeat split. Qed.

Lemma escape_injective s : ∀ s', s ≫= entity = s' ≫= entity → s = s'.
Proof.
  destruct entity_units as (Hamp & Hquot & Hlt & Hgt).
  induction s as [|x s IH]; intros [|y s'].
  - reflexivity.
  - rewrite bind_cons.
    destruct (entity_cases y) as [[_ ->]|[[_ ->]|[[_ ->]|[[_ ->]|(_ & _ & _ & _ & ->)]]]];
      rewrite ?Hamp, ?Hquot, ?Hlt, ?Hgt; discriminate.
  - rewrite bind_cons.
    destruct (entity_cases x) as [[_ ->]|[[_ ->]|[[_ ->]|[[_ ->]|(_ & _ & _ & _ & ->)]]]];
      rewrite ?Hamp, ?Hquot, ?Hlt, ?Hgt; discriminate.
  - rewrite !bind_cons. intros H.
    assert (x = y ∧ s ≫= entity = s' ≫= entity) as [-> Hrest].
    { destruct (entity_cases x)
        as [[Ex Hx]|[[Ex Hx]|[[Ex Hx]|[[Ex Hx]|(? & ? & ? & ? & Hx)]]]];
      destruct (entity_cases y)
        as [[Ey Hy]|[[Ey Hy]|[[Ey Hy]|[[Ey Hy]|(? & ? & ? & ? & Hy)]]]];
      rewrite Hx, Hy in H; rewrite ?Hamp, ?Hquot, ?Hlt, ?Hgt in H; cbn [app] in H;
      try discriminate; simplify_eq; try done. }
    f_equal. by apply IH.
Qed.

(** The four replacements of [escapeAttr], done one after the other on
    the whole text, come to one pass that writes each code unit as its
    entity: the ampersand of an entity written for a quote or an angle
    bracket is not escaped a second time, since ampersands are replaced
    first.  Nothing is lost: texts that differ have escaped forms that
    differ, so a text that was escaped before and the raw one never
    collide. *)
Theorem escapeAttr_one_pass_no_collision (B : Builtins) (s s' : jsstring) :
  escapeAttr (Str s) = Normal (s ≫= entity)
  ∧ (s ≠ s' → escapeAttr (Str s) ≠ escapeAttr (Str s')).
Proof.
  assert (Heq : ∀ t, escapeAttr (Str t) = Normal (t ≫= entity)).
  { intros t. unfold escapeAttr.
    assert (ToString (or_else (Str t) (Str [])) = Normal t) as ->
      by (by destruct t).
    cbn [mbind Outcome_bind]. by rewrite escape_one_pass. }
  split; [apply Heq|].
  intros Hne. rewrite !Heq. intros [= H]. by apply Hne, escape_injective.
Qed.

Lemma escapeAttr_one_pass_no_collision_witness :
  escapeAttr (B := example_builtins) (Str (lit "<")) = Normal (lit "&lt;")
  ∧ escapeAttr (B := example_builtins) (Str (lit "<"))
    ≠ escapeAttr (B := example_builtins) (Str (lit "&lt;")).
Proof.
  destruct (escapeAttr_one_pass_no_collision example_builtins (lit "<") (lit "&lt;"))
    as [Hone Hdiff].
  split; [exact Hone | apply Hdiff; discriminate].
Defined.

(** ** The markers and their popups *)

Section Drawing.
Context {B : Builtins}.

(** What one round of the loop adds to the map for the store [s]. *)
Definition draws (s : Store) (d : list Effect) : Prop :=
  ∃ icon content,
    buildStoreIcon s = Normal icon ∧ popupHtml s = Normal content
    ∧ d = [AddMarker (coords s) icon; BindPopup (trim content)].

(** What the round that throws [e] on the store [s] leaves behind: nothing
    when the icon cannot be built, the marker alone when the popup
    cannot. *)
Definition stuck (e : Exn) (s : Store) (orphan : list Effect) : Prop :=
  (buildStoreIcon s = Thrown e ∧ orphan = [])
  ∨ (∃ icon, buildStoreIcon s = Normal icon ∧ popupHtml s = Thrown e
       ∧ orphan = [AddMarker (coords s) icon]).

(** A dataset that makes the popup of its second store fail: the [id] is
    an object whose own [toString] is not a function. *)
Definition broken_dataset : jsstring :=
  markup "[{'id':'s1','name':'Cafe','lat':1,'lng':2},
           {'id':{'toString':1},'name':'Odd','lat':3,'lng':4},
           {'id':'s3','name':'Late','lat':5,'lng':6}]".

Definition broken_stores : value :=
  match JSON_parse broken_dataset with Normal v => v | Thrown _ => Null end.

Definition broken_kept : list Store :=
  match normalizedStores broken_stores with Normal kept => kept | Thrown _ => [] end.

(** The loop, run to its end or to the round that throws. *)
Lemma foldM_plot_run ns : ∀ bounds tr,
  match foldM plot ns bounds tr with
  | (Normal b, tr') =>
      b = bounds ++ (coords <$> ns)
      ∧ ∃ drawn, Forall2 draws ns drawn ∧ tr' = tr ++ mjoin drawn
  | (Thrown e, tr') =>
      ∃ done s rest drawn orphan,
        ns = done ++ s :: rest ∧ Forall2 draws done drawn
        ∧ stuck e s orphan ∧ tr' = tr ++ mjoin drawn ++ orphan
  end.
Proof.
  induction ns as [|s ns IH]; intros bounds tr.
  - cbn. split; [by rewrite app_nil_r|]. exists []. split; [constructor|].
    by rewrite app_nil_r.
  - rewrite foldM_plot_cons, plot_eq.
    destruct (buildStoreIcon s) as [icon|e] eqn:Hicon.
    2:{ exists [], s, ns, [], []. split; [reflexivity|]. split; [constructor|].
        split; [by left|]. by rewrite !app_nil_r. }
    destruct (popupHtml s) as [content|e] eqn:Hpopup.
    2:{ exists [], s, ns, [], [AddMarker (coords s) icon]. split; [reflexivity|].
        split; [constructor|]. split; [right; eauto|]. reflexivity. }
    specialize (IH (bounds ++ [coords s])
                  ((tr ++ [AddMarker (coords s) icon]) ++ [BindPopup (trim content)])).
    assert (Hs : draws s [AddMarker (coords s) icon; BindPopup (trim content)])
      by (exists icon, content; by rewrite Hicon, Hpopup).
    destruct (foldM plot ns _ _) as [[b|e] tr'].
    + destruct IH as [-> (drawn & Hdrawn & ->)].
      split; [by rewrite <- app_assoc|].
      exists ([AddMarker (coords s) icon; BindPopup (trim content)] :: drawn).
      split; [by constructor|]. cbn. by rewrite <- !app_assoc.
    + destruct IH as (done & s' & rest & drawn & orphan & -> & Hdone & Hstuck & ->).
      exists (s :: done), s', rest,
        ([AddMarker (coords s) icon; BindPopup (trim content)] :: drawn), orphan.
      split; [reflexivity|]. split; [by constructor|]. split; [exact Hstuck|].
      cbn. by rewrite <- !app_assoc.
Qed.

(** The rounds of the loop add markers and popups only. *)
Lemma drawn_plain ns drawn :
  Forall2 draws ns drawn →
  List.filter is_view (mjoin drawn) = [] ∧ empty_states (mjoin drawn) = []
  ∧ warnings (mjoin drawn) = [] ∧ markers (mjoin drawn) = coords <$> ns
  ∧ length (popups (mjoin drawn)) = length ns.
Proof.
  induction 1 as [|s d ns drawn (icon & content & _ & _ & ->) _ (H1 & H2 & H3 & H4 & H5)].
  - by repeat split.
  - cbn. repeat split; try assumption.
    + change (coords s :: markers (mjoin drawn) = coords s :: (coords <$> ns)).
      by rewrite H4.
    + change (S (length (popups (mjoin drawn))) = S (length ns)). by rewrite H5.
Qed.

Lemma stuck_plain e s orphan :
  stuck e s orphan →
  List.filter is_view orphan = [] ∧ empty_states orphan = [] ∧ popups orphan = [].
Proof. intros [[_ ->] | (icon & _ & _ & ->)]; by repeat split. Qed.

End Drawing.

(** On a page load that runs to its end with at least one store kept, the
    map gets, after its set-up, one marker for each kept store, in the
    order of the dataset, each followed at once by its own popup, namely
    the icon and the trimmed popup text built from that very store; then
    comes the one command that frames them, and nothing else. *)
Theorem each_store_gets_its_marker_and_popup
    (B : Builtins) (el : MapEl) (stores : value) (kept : list Store) :
  JSON_parse (dataset_text el) = Normal stores →
  normalizedStores stores = Normal kept →
  kept ≠ [] →
  (render (Some el) true).1 = Normal () →
  ∃ drawn view,
    (render (Some el) true).2 = setup ++ mjoin drawn ++ [view]
    ∧ Forall2 draws kept drawn
    ∧ is_view view = true
    ∧ length (markers (render (Some el) true).2) = length kept
    ∧ length (popups (render (Some el) true).2) = length kept
    ∧ empty_states (render (Some el) true).2 = []
    ∧ warnings (render (Some el) true).2 = [].
Proof.
  intros Hparse Hnorm Hkept. rewrite script_eq, Hparse, Hnorm.
  destruct kept as [|s ns]; [done|].
  pose proof (foldM_plot_run (s :: ns) [] setup) as Hrun.
  destruct (foldM plot (s :: ns) [] setup) as [[bounds|e] tr]; [|discriminate].
  destruct Hrun as [-> (drawn & Hdrawn & ->)].
  destruct (drawn_plain _ _ Hdrawn) as (Hv & He & Hw & Hm & Hp).
  rewrite frame_eq. cbn [app fmap list_fmap].
  assert (Hgoal : ∀ view, is_view view = true →
    (λ o : Outcome unit * list Effect, o.1 = Normal () →
       ∃ drawn0 view0,
         o.2 = setup ++ mjoin drawn0 ++ [view0] ∧ Forall2 draws (s :: ns) drawn0
         ∧ is_view view0 = true
         ∧ length (markers o.2) = length (s :: ns)
         ∧ length (popups o.2) = length (s :: ns)
         ∧ empty_states o.2 = [] ∧ warnings o.2 = [])
      (Normal (), (setup ++ mjoin drawn) ++ [view])).
  { intros view Hview _. exists drawn, view. cbn [snd].
    split; [by rewrite <- app_assoc|]. split; [exact Hdrawn|]. split; [exact Hview|].
    unfold markers, popups, empty_states, warnings in *.
    rewrite !omap_app, Hm, He, Hw.
    rewrite !length_app, Hp, length_fmap.
    destruct view; try discriminate; cbn; repeat split; lia. }
  destruct ns as [|s' ns]; apply Hgoal; reflexivity.
Qed.

Lemma each_store_gets_its_marker_and_popup_witness :
  ∃ drawn view,
    (render (B := example_builtins) (page_with example_dataset) true).2
    = setup ++ mjoin drawn ++ [view]
    ∧ length drawn = 2%nat.
Proof.
  destruct (each_store_gets_its_marker_and_popup example_builtins
              {| dataset_stores := Some example_dataset |}
              (Arr example_items) example_kept)
    as (drawn & view & Htr & Hdrawn & _).
  { vm_compute. reflexivity. }
  { vm_compute. reflexivity. }
  { vm_compute. discriminate. }
  { vm_compute. reflexivity. }
  exists drawn, view. split; [exact Htr|].
  apply Forall2_length in Hdrawn. rewrite <- Hdrawn. vm_compute. reflexivity.
Defined.

(** When a record makes the loop throw, the page is left half drawn: the
    stores before it have their markers and popups, the stores after it
    have nothing, the record itself has no popup and has a marker only if
    it was the popup that failed; the map keeps the view of its set-up,
    centred on Goa at zoom 9, and no placeholder is shown. *)
Theorem failing_record_leaves_map_half_drawn
    (B : Builtins) (el : MapEl) (stores : value) (kept : list Store) (e : Exn) :
  JSON_parse (dataset_text el) = Normal stores →
  normalizedStores stores = Normal kept →
  (render (Some el) true).1 = Thrown e →
  ∃ done s rest drawn orphan,
    kept = done ++ s :: rest
    ∧ Forall2 draws done drawn
    ∧ stuck e s orphan
    ∧ (render (Some el) true).2 = setup ++ mjoin drawn ++ orphan
    ∧ length (popups (render (Some el) true).2) = length done
    ∧ final_view (render (Some el) true).2 = Some (SetView GOA_CENTER DEFAULT_ZOOM)
    ∧ empty_states (render (Some el) true).2 = [].
Proof.
  intros Hparse Hnorm. rewrite script_eq, Hparse, Hnorm.
  destruct kept as [|s ns]; [discriminate|].
  pose proof (foldM_plot_run (s :: ns) [] setup) as Hrun.
  destruct (foldM plot (s :: ns) [] setup) as [[bounds|e'] tr].
  { rewrite frame_eq. destruct Hrun as [-> _]. cbn [app fmap list_fmap].
    destruct ns; discriminate. }
  cbn [fst snd]. intros [= ->].
  destruct Hrun as (done & s' & rest & drawn & orphan & Hk & Hdone & Hstuck & ->).
  exists done, s', rest, drawn, orphan.
  destruct (drawn_plain _ _ Hdone) as (Hv & He & _ & _ & Hp).
  destruct (stuck_plain _ _ _ Hstuck) as (Hv' & He' & Hp').
  split; [exact Hk|]. split; [exact Hdone|]. split; [exact Hstuck|].
  split; [reflexivity|].
  unfold final_view, popups, empty_states in *.
  rewrite !omap_app, !List.filter_app, Hv, Hv', He, He', Hp', !length_app, Hp.
  cbn. repeat split. lia.
Qed.

Lemma failing_record_leaves_map_half_drawn_witness :
  render (B := example_builtins) (page_with broken_dataset) true
  = (Thrown TypeError,
     setup ++
     [AddMarker (Num (of_decimal false 1 0), Num (of_decimal false 2 0))
        {| className := "map-pin leaflet-div-icon";
           html := markup "<div class='map-pin__inner'><span>C</span></div>";
           iconSize := (34, 44); iconAnchor := (17, 44); popupAnchor := (0, -42) |};
      BindPopup
        (markup "<div class='home-map-popup'>"
         ++ newline ++ spaces 8 ++ markup "<strong>Cafe</strong><br />"
         ++ newline ++ spaces 8 ++ markup "Goa<br />"
         ++ newline ++ spaces 8
         ++ markup "<a href='/store/s1' target='_blank' rel='noopener'>Open store page</a>"
         ++ newline ++ spaces 6 ++ markup "</div>");
      AddMarker (Num (of_decimal false 3 0), Num (of_decimal false 4 0))
        {| className := "map-pin leaflet-div-icon";
           html := markup "<div class='map-pin__inner'><span>O</span></div>";
           iconSize := (34, 44); iconAnchor := (17, 44); popupAnchor := (0, -42) |}])
  ∧ final_view (render (B := example_builtins) (page_with broken_dataset) true).2
    = Some (SetView GOA_CENTER DEFAULT_ZOOM).
Proof.
  destruct (failing_record_leaves_map_half_drawn example_builtins
              {| dataset_stores := Some broken_dataset |}
              broken_stores broken_kept TypeError)
    as (done & s & rest & drawn & orphan & _ & _ & _ & _ & _ & Hview & _).
  { vm_compute. reflexivity. }
  { vm_compute. reflexivity. }
  { vm_compute. reflexivity. }
  split; [vm_compute; reflexivity | exact Hview].
Defined.

(** ** The placeholder *)

(** Once the dataset has parsed and normalized, the placeholder is shown
    exactly when no store was kept.  Then the page is the set-up followed
    by the placeholder: no marker, and the view of the set-up.  When a
    store was kept there is no placeholder, even if the loop throws. *)
Theorem placeholder_iff_no_store_kept
    (B : Builtins) (el : MapEl) (stores : value) (kept : list Store) :
  JSON_parse (dataset_text el) = Normal stores →
  normalizedStores stores = Normal kept →
  (empty_states (render (Some el) true).2
   = [("goa-map__empty", "Stores with geocoded locations will appear here soon.")]
   ↔ kept = [])
  ∧ (kept ≠ [] → empty_states (render (Some el) true).2 = [])
  ∧ (kept = [] →
       render (Some el) true = (Normal (), setup ++ [placeholder])
       ∧ markers (render (Some el) true).2 = []
       ∧ final_view (render (Some el) true).2 = Some (SetView GOA_CENTER DEFAULT_ZOOM)).
Proof.
  intros Hparse Hnorm. rewrite script_eq, Hparse, Hnorm.
  destruct kept as [|s ns].
  { split; [by split|]. split; [done|]. intros _. by repeat split. }
  assert (Hnone : empty_states
                    (match foldM plot (s :: ns) [] setup with
                     | (Normal bounds, tr) => frame bounds tr
                     | (Thrown e, tr) => (Thrown e, tr)
                     end).2 = []).
  { pose proof (foldM_plot_run (s :: ns) [] setup) as Hrun.
    destruct (foldM plot (s :: ns) [] setup) as [[bounds|e] tr].
    - destruct Hrun as [-> (drawn & Hdrawn & ->)].
      destruct (drawn_plain _ _ Hdrawn) as (_ & He & _).
      rewrite frame_eq. unfold empty_states in *. destruct ns as [|s' ns].
      + change (omap (λ e, match e with AppendEmptyState c t => Some (c, t) | _ => None end)
                  ((setup ++ mjoin drawn) ++ [SetView (coords s) 13]) = []).
        by rewrite !omap_app, He.
      + change (omap (λ e, match e with AppendEmptyState c t => Some (c, t) | _ => None end)
                  ((setup ++ mjoin drawn)
                   ++ [FitBounds (coords <$> s :: s' :: ns) (30, 30) 15]) = []).
        by rewrite !omap_app, He.
    - destruct Hrun as (done & s' & rest & drawn & orphan & _ & Hdone & Hstuck & ->).
      destruct (drawn_plain _ _ Hdone) as (_ & He & _).
      destruct (stuck_plain _ _ _ Hstuck) as (_ & He' & _).
      cbn [snd]. unfold empty_states in *. by rewrite !omap_app, He, He'. }
  rewrite Hnone. split; [split; discriminate|]. split; [done|]. discriminate.
Qed.

Lemma placeholder_iff_no_store_kept_witness :
  empty_states (render (B := example_builtins) (page_with example_dataset) true).2 = []
  ∧ empty_states
      (render (B := example_builtins)
         (page_with (markup "[{'id':'s4','name':'Words','lat':'north','lng':'73.8'}]"))
         true).2
    = [("goa-map__empty", "Stores with geocoded locations will appear here soon.")].
Proof.
  split.
  - destruct (placeholder_iff_no_store_kept example_builtins
                {| dataset_stores := Some example_dataset |}
                (Arr example_items) example_kept) as (_ & Hnone & _).
    { vm_compute. reflexivity. }
    { vm_compute. reflexivity. }
    apply Hnone. vm_compute. discriminate.
  - eassert (Hparse : JSON_parse (markup "[{'id':'s4','name':'Words','lat':'north','lng':'73.8'}]")
                      = Normal _) by (vm_compute; reflexivity).
    destruct (placeholder_iff_no_store_kept example_builtins
                {| dataset_stores :=
                     Some (markup "[{'id':'s4','name':'Words','lat':'north','lng':'73.8'}]") |}
                _ [] Hparse) as (Hiff & _).
    { vm_compute. reflexivity. }
    by apply Hiff.
Defined.

(** ** The text of a popup *)

Lemma trim_start_spaces ws s :
  Forall (λ c, is_space c = true) ws → trim_start (ws ++ s) = trim_start s.
Proof. induction 1 as [|c ws Hc _ IH]; [reflexivity|]. cbn. by rewrite Hc. Qed.

Lemma trim_start_nonspace c s : is_space c = false → trim_start (c :: s) = c :: s.
Proof. intros Hc. cbn. by rewrite Hc. Qed.

Lemma trim_end_spaces s ws :
  Forall (λ c, is_space c = true) ws → trim_end (s ++ ws) = trim_end s.
Proof.
  intros Hws. unfold trim_end. rewrite reverse_app, trim_start_spaces; [reflexivity|].
  by apply Forall_reverse.
Qed.

Lemma trim_end_nonspace s c : is_space c = false → trim_end (s ++ [c]) = s ++ [c].
Proof.
  intros Hc. unfold trim_end. rewrite reverse_app, reverse_singleton.
  change ([c] ++ reverse s) with (c :: reverse s).
  rewrite trim_start_nonspace by done. by rewrite reverse_cons, reverse_involutive.
Qed.

(** A text that neither starts nor ends with white space, with white
    space around it, is what [trim] gives back. *)
Lemma trim_framed a x m y b :
  Forall (λ c, is_space c = true) a → Forall (λ c, is_space c = true) b →
  is_space x = false → is_space y = false →
  trim (a ++ (x :: m ++ [y]) ++ b) = x :: m ++ [y].
Proof.
  intros Ha Hb Hx Hy. unfold trim.
  rewrite trim_start_spaces by done.
  change ((x :: m ++ [y]) ++ b) with (x :: (m ++ [y]) ++ b).
  rewrite trim_start_nonspace by done.
  change (x :: (m ++ [y]) ++ b) with ((x :: m ++ [y]) ++ b).
  rewrite trim_end_spaces by done.
  change (x :: m ++ [y]) with ((x :: m) ++ [y]).
  by apply trim_end_nonspace.
Qed.

(** [[l, c].filter(Boolean).join(", ") || "Goa"] for two strings. *)
Definition label_of (l c : jsstring) : jsstring :=
  match l, c with
  | [], [] => lit "Goa"
  | [], _ :: _ => c
  | _ :: _, [] => l
  | _ :: _, _ :: _ => l ++ lit ", " ++ c
  end.

(** The popup of a store whose location and city are strings: the text
    handed to [bindPopup] starts at [<div] and ends at [</div>], the white
    space of the template around them trimmed away, and holds, in this
    order, the name in bold, the label and the link to [/store/] followed
    by the id, each put in as it is.  The label is the location and the
    city separated by a comma and a space, the one of them that is not
    empty when the other is, and [Goa] when both are empty. *)
Theorem popup_shows_name_label_and_link
    (B : Builtins) (s : Store) (n l c i : jsstring) :
  ToString (name s) = Normal n → location s = Str l → city s = Str c →
  ToString (id s) = Normal i →
  ∃ content,
    popupHtml s = Normal content
    ∧ trim content
      = markup "<div class='home-map-popup'>"
        ++ newline ++ spaces 8 ++ markup "<strong>" ++ n ++ markup "</strong><br />"
        ++ newline ++ spaces 8 ++ label_of l c ++ markup "<br />"
        ++ newline ++ spaces 8 ++ markup "<a href='/store/" ++ i
        ++ markup "' target='_blank' rel='noopener'>Open store page</a>"
        ++ newline ++ spaces 6 ++ markup "</div>".
Proof.
  intros Hn Hl Hc Hi.
  assert (Hlabel : ∃ label, labelLocation s = Normal label
            ∧ ToString (or_else (Str label) (Str (lit "Goa"))) = Normal (label_of l c)).
  { unfold labelLocation. rewrite Hl, Hc.
    destruct l as [|l0 l], c as [|c0 c]; cbn; eauto. }
  destruct Hlabel as (label & Hlabel & Hshown).
  unfold popupHtml. rewrite Hlabel, Hn. cbn [mbind Outcome_bind].
  rewrite Hshown, Hi. cbn [mbind Outcome_bind].
  eexists. split; [reflexivity|].
  set (inner := newline ++ spaces 8 ++ markup "<strong>" ++ n ++ markup "</strong><br />"
        ++ newline ++ spaces 8 ++ label_of l c ++ markup "<br />"
        ++ newline ++ spaces 8 ++ markup "<a href='/store/" ++ i
        ++ markup "' target='_blank' rel='noopener'>Open store page</a>"
        ++ newline ++ spaces 6 ++ markup "</div").
  transitivity (trim ((newline ++ spaces 6)
                      ++ (60 :: (markup "div class='home-map-popup'>" ++ inner) ++ [62])
                      ++ (newline ++ spaces 4))).
  { f_equal. unfold inner.
    repeat (rewrite <- app_assoc || rewrite <- app_comm_cons). reflexivity. }
  rewrite trim_framed; try reflexivity.
  - unfold inner. repeat (rewrite <- app_assoc || rewrite <- app_comm_cons). reflexivity.
  - repeat constructor.
  - repeat constructor.
Qed.

Lemma popup_shows_name_label_and_link_witness :
  ∃ content,
    popupHtml (B := example_builtins)
      (mkStore (Str (lit "s2")) (Str (lit "Bakery")) (Str (lit "Panaji"))
         (Str (lit "Market Road")) (Str []) Null Null) = Normal content
    ∧ trim content
      = markup "<div class='home-map-popup'>"
        ++ newline ++ spaces 8 ++ markup "<strong>Bakery</strong><br />"
        ++ newline ++ spaces 8 ++ markup "Market Road, Panaji<br />"
        ++ newline ++ spaces 8
        ++ markup "<a href='/store/s2' target='_blank' rel='noopener'>Open store page</a>"
        ++ newline ++ spaces 6 ++ markup "</div>".
Proof.
  destruct (popup_shows_name_label_and_link example_builtins
              (mkStore (Str (lit "s2")) (Str (lit "Bakery")) (Str (lit "Panaji"))
                 (Str (lit "Market Road")) (Str []) Null Null)
              (lit "Bakery") (lit "Market Road") (lit "Panaji") (lit "s2")
              eq_refl eq_refl eq_refl eq_refl) as (content & Hc & Ht).
  exists content. split; [exact Hc|]. rewrite Ht. vm_compute. reflexivity.
Defined.

(** ** Coordinates that are not numbers *)

(** A text with nothing in it but white space, or whose first character
    after the white space is neither a digit, a sign, a point nor the [I]
    of [Infinity]. *)
Definition unreadable (t : jsstring) : bool :=
  match trim_start t with
  | [] => true
  | c :: _ => negb (is_digit c || (c =? 43) || (c =? 45) || (c =? 46) || (c =? 73))
  end.

Lemma trim_start_head t c r : trim_start t = c :: r → is_space c = false.
Proof.
  induction t as [|x t IH]; [discriminate|]. cbn.
  destruct (is_space x) eqn:E; [exact IH|]. by intros [= <- _].
Qed.

Lemma parseFloat_unreadable t : unreadable t = true → parseFloat t = S754_nan.
Proof.
  unfold unreadable, parseFloat.
  destruct (trim_start t) as [|c r]; [reflexivity|].
  rewrite negb_true_iff, !orb_false_iff, !Z.eqb_neq.
  intros ((((Hd & H43) & H45) & H46) & H73).
  destruct c as [|p|p]; [reflexivity| |reflexivity].
  do 7 (try match goal with
            | q : positive |- _ => destruct q as [q|q|]
            end);
    first [reflexivity | discriminate Hd | congruence].
Qed.

Lemma normalize_coordinates r s :
  normalize r = Normal s →
  ∃ la ln, get r "lat" = Normal la ∧ get r "lng" = Normal ln
    ∧ lat s = coordinate la ∧ lng s = coordinate ln.
Proof.
  unfold normalize.
  destruct (get r "id"); [|discriminate]. cbn [mbind Outcome_bind].
  destruct (get r "name"); [|discriminate]. cbn [mbind Outcome_bind].
  destruct (get r "city"); [|discriminate]. cbn [mbind Outcome_bind].
  destruct (get r "location"); [|discriminate]. cbn [mbind Outcome_bind].
  destruct (get r "image"); [|discriminate]. cbn [mbind Outcome_bind].
  destruct (get r "lat") as [la|]; [|discriminate]. cbn [mbind Outcome_bind].
  destruct (get r "lng") as [ln|]; [|discriminate]. cbn [mbind Outcome_bind].
  intros [= <-]. by exists la, ln.
Qed.

(** A latitude or longitude given as text that does not start with a
    number (an empty text, white space only, a word) is read as NaN, and
    the record is dropped whatever its other coordinate is. *)
Theorem unreadable_coordinate_drops_record (r : value) (s : Store) (t : jsstring) :
  normalize r = Normal s →
  get r "lat" = Normal (Str t) ∨ get r "lng" = Normal (Str t) →
  unreadable t = true →
  parseFloat t = S754_nan
  ∧ has_coordinates s = false
  ∧ normalizedStores (Arr [r]) = Normal [].
Proof.
  intros Hs Hget Ht. pose proof (parseFloat_unreadable t Ht) as Hnan.
  split; [exact Hnan|].
  assert (Hdrop : has_coordinates s = false).
  { destruct (normalize_coordinates r s Hs) as (la & ln & Hla & Hln & Hlat & Hlng).
    unfold has_coordinates.
    destruct Hget as [Hget | Hget].
    - rewrite Hla in Hget. injection Hget as ->.
      rewrite Hlat. cbn [coordinate]. by rewrite Hnan.
    - rewrite Hln in Hget. injection Hget as ->.
      rewrite Hlng. cbn [coordinate]. rewrite Hnan. apply andb_false_r. }
  split; [exact Hdrop|].
  unfold normalizedStores. cbn [mapO]. rewrite Hs. cbn [mbind Outcome_bind List.filter].
  by rewrite Hdrop.
Qed.

Lemma unreadable_coordinate_drops_record_witness :
  normalizedStores
    (Arr [Obj [(lit "id", Str (lit "s4")); (lit "lat", Str (lit "  "));
               (lit "lng", Str (lit "73.8"))]])
  = Normal [].
Proof.
  eassert (Hs : normalize (Obj [(lit "id", Str (lit "s4")); (lit "lat", Str (lit "  "));
                                (lit "lng", Str (lit "73.8"))]) = Normal _)
    by (vm_compute; reflexivity).
  apply (unreadable_coordinate_drops_record _ _ (lit "  ") Hs).
  - left. vm_compute. reflexivity.
  - vm_compute. reflexivity.
Defined.

(** ** What normalizing guarantees *)





(** ** The photo marker *)

Lemma escapeAttr_entities (B : Builtins) v t :
  escapeAttr v = Normal t →
  ∃ u, ToString (or_else v (Str [])) = Normal u ∧ t = u ≫= entity.
Proof.
  unfold escapeAttr. destruct (ToString _) as [u|]; [|discriminate].
  cbn [mbind Outcome_bind]. rewrite escape_one_pass. intros [= <-]. eauto.
Qed.

Lemma entities_closed u d : d ∈ u ≫= entity → d ≠ 34 ∧ d ≠ 60 ∧ d ≠ 62.
Proof.
  rewrite list_elem_of_bind. intros (x & Hd & _).
  destruct entity_units as (Hamp & Hquot & Hlt & Hgt).
  destruct (entity_cases x)
    as [[_ Hx]|[[_ Hx]|[[_ Hx]|[[_ Hx]|(? & ? & ? & ? & Hx)]]]];
    rewrite Hx in Hd; rewrite ?Hamp, ?Hquot, ?Hlt, ?Hgt in Hd;
    repeat (apply elem_of_cons in Hd as [->|Hd]);
    try (by apply not_elem_of_nil in Hd); by repeat split.
Qed.

(** A store whose image address and name hold quotes, an ampersand and
    angle brackets. *)
Definition photo_store : Store :=
  mkStore (Str (lit "s1")) (Str (markup "Tom's 'Cafe' <new>")) (Str []) (Str [])
    (Str (markup "/img/a.png?x=1&y='2'")) Null Null.

(** A store with an image gets the photo marker and no other: inside the
    fixed markup stand the image address and the name, each with every
    ampersand, double quote and angle bracket written as its entity, so
    that neither can close the attribute it is in or open a tag. *)
Theorem photo_marker_keeps_values_inside_attributes
    (B : Builtins) (s : Store) (icon : DivIcon) :
  truthy (image s) = true →
  buildStoreIcon s = Normal icon →
  ∃ src alt,
    ToString (image s) = Normal src
    ∧ ToString (or_else (name s) (Str [])) = Normal alt
    ∧ html icon
      = markup "<div class='map-pin__inner map-pin__inner--photo'><img src='"
        ++ (src ≫= entity) ++ markup "' alt='" ++ (alt ≫= entity)
        ++ markup " thumbnail' loading='lazy' /></div>"
    ∧ (∀ d, d ∈ (src ≫= entity) ++ (alt ≫= entity) → d ≠ 34 ∧ d ≠ 60 ∧ d ≠ 62)
    ∧ className icon = "map-pin leaflet-div-icon"
    ∧ iconSize icon = (34, 44) ∧ iconAnchor icon = (17, 44) ∧ popupAnchor icon = (0, -42).
Proof.
  intros Him Hicon.
  destruct (photo_icon_escaped B s icon Him Hicon) as (src' & alt' & Hsrc & Halt & Hhtml).
  apply escapeAttr_entities in Hsrc as (src & Hsrc & ->).
  apply escapeAttr_entities in Halt as (alt & Halt & ->).
  assert (Hor : or_else (image s) (Str []) = image s) by (unfold or_else; by rewrite Him).
  rewrite Hor in Hsrc.
  exists src, alt. split; [exact Hsrc|]. split; [exact Halt|].
  split.
  { rewrite Hhtml. repeat (rewrite <- app_assoc || rewrite <- app_comm_cons). reflexivity. }
  split.
  { intros d Hd. apply elem_of_app in Hd as [Hd|Hd]; by apply entities_closed in Hd. }
  revert Hicon. unfold buildStoreIcon. rewrite Him.
  destruct (initial_of s); [|discriminate]. cbn [mbind Outcome_bind].
  destruct (escapeAttr (image s)); [|discriminate]. cbn [mbind Outcome_bind].
  destruct (escapeAttr (name s)); [|discriminate]. cbn [mbind Outcome_bind].
  intros [= <-]. by repeat split.
Qed.

Lemma photo_marker_keeps_values_inside_attributes_witness :
  ∃ icon,
    buildStoreIcon (B := example_builtins) photo_store = Normal icon
    ∧ html icon
      = markup "<div class='map-pin__inner map-pin__inner--photo'><img src='"
        ++ lit "/img/a.png?x=1&amp;y=&quot;2&quot;" ++ markup "' alt='"
        ++ lit "Tom&quot;s &quot;Cafe&quot; &lt;new&gt;"
        ++ markup " thumbnail' loading='lazy' /></div>".
Proof.
  eassert (Hicon : buildStoreIcon (B := example_builtins) photo_store = Normal _)
    by (vm_compute; reflexivity).
  destruct (photo_marker_keeps_values_inside_attributes example_builtins photo_store _
              eq_refl Hicon) as (src & alt & Hsrc & Halt & Hhtml & _).
  eexists. split; [exact Hicon|].
  injection Hsrc as <-. injection Halt as <-.
  rewrite Hhtml. vm_compute. reflexivity.
Defined.

End StoreMapLaws.
